(** * raii_in_c: the destructor stack of [raii_in_c.h]

    The header [include/raii_in_c.h] is a handful of GNU C macros that thread
    control through cleanup blocks with label addresses ([&&label]) and
    computed [goto].  A function that uses them owns

    - an array [destructor_label_addresses] of [n] label addresses,
    - a cursor [next_label_address] into that array,
    - a scope marker [destructor_label_address_stack_end],
    - the label [return_label_address] a cleanup block jumps back to.

    The macros are embedded as what they expand to: a list of statements with
    labels and jumps.  A small machine executes such a list; a jump resolves
    its label in the whole function body.  Pointers into the array are
    offsets (in elements) from its base, so [destructor_label_addresses]
    itself is offset [0] and [destructor_label_addresses - 1] is [-1].
    [assert] is the one of <assert.h> without [NDEBUG]: a false condition
    aborts.

    What is modelled is one block of a function in which the macros follow
    one another: one [destructor_label_address_stack_end] is in scope, and
    the text of a cleanup block is opaque, so that running it only records
    that it ran. *)

From stdpp Require Import numbers list sets.

#[local] Set Warnings "-register-all".

Local Open Scope Z_scope.

(** ** Labels, statements *)

(** The labels the macros paste together: [destructor ## lineno],
    [after_destructor ## lineno] and [return ## lineno]. *)
Inductive label : Type :=
| destructor (lineno : nat)
| after_destructor (lineno : nat)
| return_ (lineno : nat).

#[global] Instance label_eq_dec : EqDecision label.
Proof. solve_decision. Defined.

(** The conditions the macros test. *)
Inductive cond : Type :=
| base_le_next            (* destructor_label_addresses <= next_label_address *)
| top_gt_next             (* destructor_label_addresses
                             + sizeof destructor_label_addresses
                               / sizeof destructor_label_addresses[0]
                             > next_label_address *)
| stack_end_lt_next       (* destructor_label_address_stack_end < next_label_address *)
| next_pred_ne_stack_end. (* next_label_address - 1 != destructor_label_address_stack_end *)

(** The statements the macros are made of, one constructor per statement. *)
Inductive stmt : Type :=
| Sdeclare_array (n : Z)       (* void *destructor_label_addresses[n]; *)
| Sreturn_label_null           (* return_label_address = NULL; *)
| Snext_to_base                (* next_label_address = destructor_label_addresses; *)
| Sassert (c : cond)           (* assert(c); *)
| Sstore_and_advance (l : label) (* *next_label_address++ = &&l; *)
| Sgoto (l : label)            (* goto l; *)
| Slabel (l : label)           (* l: *)
| Sblock (lineno : nat)        (* ({__VA_ARGS__}); the cleanup block written at that line *)
| Sgoto_return_label           (* goto *return_label_address; *)
| Sstack_end_to_next_pred      (* destructor_label_address_stack_end = next_label_address - 1; *)
| Sstack_end_to_base_pred      (* destructor_label_address_stack_end = destructor_label_addresses - 1 *)
| Sreturn_label_to (l : label) (* return_label_address = &&l; *)
| Sif (c : cond) (body : list stmt) (* if (c) { body } *)
| Spredecrement_next           (* void **const destructor_label_address = --next_label_address; *)
| Sgoto_popped                 (* goto * ( *destructor_label_address); *)
| Sreturn (ret : Z)            (* return (ret); *)
| Sbreak.                      (* break; *)

Definition code : Type := list stmt.

(** ** The macros *)

Definition MAKE_DESTRUCTOR_STACK (n : Z) : code :=
  [ Sdeclare_array n;
    Sreturn_label_null;
    Snext_to_base ].

Definition PUSH_DESTRUCTOR__ (lineno : nat) : code :=
  [ Sassert base_le_next;
    Sassert top_gt_next;
    Sstore_and_advance (destructor lineno);
    Sgoto (after_destructor lineno);
    Slabel (destructor lineno);
    Sblock lineno;
    Sgoto_return_label;
    Slabel (after_destructor lineno) ].

Definition PUSH_DESTRUCTOR_ (lineno : nat) : code := PUSH_DESTRUCTOR__ lineno.

(** [PUSH_DESTRUCTOR(...)] written at line [LINE]: [__LINE__] is [LINE]. *)
Definition PUSH_DESTRUCTOR (LINE : nat) : code := PUSH_DESTRUCTOR_ LINE.

Definition BEGIN_SCOPE : code :=
  [ Sstack_end_to_next_pred ].

(** The block of the [if] in [END_SCOPE__].  [destructor_label_address] is a
    [const] local equal to the decremented [next_label_address], so the
    assertion on it is the assertion on the cursor. *)
Definition pop_and_jump : code :=
  [ Spredecrement_next;
    Sassert base_le_next;
    Sgoto_popped ].

Definition END_SCOPE__ (lineno : nat) : code :=
  [ Sreturn_label_to (return_ lineno);
    Slabel (return_ lineno);
    Sassert stack_end_lt_next;
    Sif next_pred_ne_stack_end pop_and_jump ].

Definition END_SCOPE_ (lineno : nat) : code := END_SCOPE__ lineno.

(** [END_SCOPE] written at line [LINE]. *)
Definition END_SCOPE (LINE : nat) : code := END_SCOPE_ LINE.

(** [if (({END_SCOPE 1;})) break; else break], written at line [LINE]. *)
Definition END_SCOPE_AND_BREAK (LINE : nat) : code :=
  END_SCOPE LINE ++ [ Sbreak ].

(** [if (destructor_label_address_stack_end = destructor_label_addresses - 1,
         ({END_SCOPE 1;})) return (ret); else return (ret)], written at line
    [LINE]. *)
Definition END_SCOPE_AND_RETURN (LINE : nat) (ret : Z) : code :=
  Sstack_end_to_base_pred :: END_SCOPE LINE ++ [ Sreturn ret ].

(** ** The variables of the function that uses the macros *)

(** A cell of the array or [return_label_address] holds a label address;
    [None] is [NULL] or an indeterminate value, through which no jump is
    defined.  [executed] is the observable effect: the cleanup blocks that
    ran, oldest first, each named by the line of its [PUSH_DESTRUCTOR]. *)
Record frame : Type := Frame {
  destructor_label_addresses : list (option label);
  return_label_address : option label;
  next_label_address : Z;
  destructor_label_address_stack_end : Z;
  executed : list nat
}.

Definition capacity (f : frame) : Z :=
  Z.of_nat (length (destructor_label_addresses f)).

Definition with_array (a : list (option label)) (f : frame) : frame :=
  Frame a (return_label_address f) (next_label_address f)
        (destructor_label_address_stack_end f) (executed f).

Definition with_return_label (r : option label) (f : frame) : frame :=
  Frame (destructor_label_addresses f) r (next_label_address f)
        (destructor_label_address_stack_end f) (executed f).

Definition with_next (p : Z) (f : frame) : frame :=
  Frame (destructor_label_addresses f) (return_label_address f) p
        (destructor_label_address_stack_end f) (executed f).

Definition with_stack_end (p : Z) (f : frame) : frame :=
  Frame (destructor_label_addresses f) (return_label_address f)
        (next_label_address f) p (executed f).

Definition with_executed (t : list nat) (f : frame) : frame :=
  Frame (destructor_label_addresses f) (return_label_address f)
        (next_label_address f) (destructor_label_address_stack_end f) t.

(** ** Execution *)

Inductive outcome : Type :=
| Running (c : code) (f : frame)   (* control is in front of [c] *)
| Aborted (f : frame)              (* an assertion failed *)
| Undefined                        (* no defined behaviour *)
| Returned (ret : Z) (f : frame)   (* the function returned [ret] *)
| Broke (f : frame)                (* [break] left the enclosing loop *)
| Done (f : frame).                (* control ran off the end of the macros *)

Definition eval_cond (c : cond) (f : frame) : bool :=
  match c with
  | base_le_next => 0 <=? next_label_address f
  | top_gt_next => next_label_address f <? 0 + capacity f
  | stack_end_lt_next => destructor_label_address_stack_end f <? next_label_address f
  | next_pred_ne_stack_end =>
      negb (next_label_address f - 1 =? destructor_label_address_stack_end f)
  end.

(** The code that follows label [l] in [c].  The macros put no label inside
    the block of an [if], so only the statements of [c] itself are searched. *)
Fixpoint find_label (l : label) (c : code) : option code :=
  match c with
  | [] => None
  | Slabel l' :: c' => if decide (l = l') then Some c' else find_label l c'
  | _ :: c' => find_label l c'
  end.

Definition jump (fn : code) (target : option label) (f : frame) : outcome :=
  match target with
  | Some l =>
      match find_label l fn with
      | Some c => Running c f
      | None => Undefined
      end
  | None => Undefined
  end.

(** The cell the cursor points at, when the cursor is inside the array. *)
Definition cell_at_next (f : frame) : option (option label) :=
  if (0 <=? next_label_address f) && (next_label_address f <? capacity f)
  then destructor_label_addresses f !! Z.to_nat (next_label_address f)
  else None.

(** One statement of the function body [fn], control being in front of [c].
    The macros check nothing but their assertions: a declaration of fewer
    than zero cells (a variable-length array, when [n] is not a constant), a
    store or a load outside the array and a jump through [NULL] or to a label
    the function does not define have no defined behaviour. *)
Definition step (fn : code) (c : code) (f : frame) : outcome :=
  match c with
  | [] => Done f
  | s :: c' =>
      match s with
      | Sdeclare_array n =>
          if n <? 0 then Undefined
          else Running c' (with_array (replicate (Z.to_nat n) None) f)
      | Sreturn_label_null => Running c' (with_return_label None f)
      | Snext_to_base => Running c' (with_next 0 f)
      | Sassert b => if eval_cond b f then Running c' f else Aborted f
      | Sstore_and_advance l =>
          match cell_at_next f with
          | Some _ =>
              Running c'
                (with_next (next_label_address f + 1)
                   (with_array
                      (<[Z.to_nat (next_label_address f) := Some l]>
                         (destructor_label_addresses f)) f))
          | None => Undefined
          end
      | Sgoto l => jump fn (Some l) f
      | Slabel _ => Running c' f
      | Sblock lineno => Running c' (with_executed (executed f ++ [lineno]) f)
      | Sgoto_return_label => jump fn (return_label_address f) f
      | Sstack_end_to_next_pred =>
          Running c' (with_stack_end (next_label_address f - 1) f)
      | Sstack_end_to_base_pred => Running c' (with_stack_end (0 - 1) f)
      | Sreturn_label_to l => Running c' (with_return_label (Some l) f)
      | Sif b body =>
          if eval_cond b f then Running (body ++ c') f else Running c' f
      | Spredecrement_next => Running c' (with_next (next_label_address f - 1) f)
      | Sgoto_popped =>
          match cell_at_next f with
          | Some target => jump fn target f
          | None => Undefined
          end
      | Sreturn ret => Returned ret f
      | Sbreak => Broke f
      end
  end.

(** [fuel] statements; with no fuel left control rests where it is. *)
Fixpoint run (fn : code) (fuel : nat) (c : code) (f : frame) : outcome :=
  match fuel with
  | O => Running c f
  | S fuel' =>
      match step fn c f with
      | Running c' f' => run fn fuel' c' f'
      | o => o
      end
  end.

(** Running a whole function body from its first statement. *)
Definition exec (fn : code) (fuel : nat) (f : frame) : outcome :=
  run fn fuel fn f.

(** A frame on entry to the function: nothing is initialised yet, nothing
    has run. *)
Definition entry_frame : frame :=
  Frame [] None 0 0 [].

(** ** The scenarios of the specification, run *)

Definition scenario_scoped : code :=
  MAKE_DESTRUCTOR_STACK 3 ++ PUSH_DESTRUCTOR 1 ++ PUSH_DESTRUCTOR 2 ++
  BEGIN_SCOPE ++ PUSH_DESTRUCTOR 3 ++ END_SCOPE 4 ++
  END_SCOPE_AND_RETURN 5 0.

Definition scenario_direct : code :=
  MAKE_DESTRUCTOR_STACK 2 ++ PUSH_DESTRUCTOR 1 ++ PUSH_DESTRUCTOR 2 ++
  END_SCOPE_AND_RETURN 3 0.

(** ** Definitions used to state what the macros do *)

(** A run has ended. *)
Definition final (o : outcome) : Prop :=
  match o with
  | Running _ _ => False
  | _ => True
  end.

(** The labels a piece of code defines. *)
Fixpoint labels (c : code) : list label :=
  match c with
  | [] => []
  | Slabel l :: c' => l :: labels c'
  | _ :: c' => labels c'
  end.

(** The frame [PUSH_DESTRUCTOR] leaves: the label stored at the cursor, the
    cursor advanced. *)
Definition pushed (lineno : nat) (f : frame) : frame :=
  with_next (next_label_address f + 1)
    (with_array
       (<[Z.to_nat (next_label_address f) := Some (destructor lineno)]>
          (destructor_label_addresses f)) f).

(** The frame [MAKE_DESTRUCTOR_STACK(n)] leaves. *)
Definition made (n : Z) (f : frame) : frame :=
  Frame (replicate (Z.to_nat n) None) None 0
        (destructor_label_address_stack_end f) (executed f).

(** Control at [return ## lineno:] stands in front of the assertion and the
    [if]. *)
Definition unwind_loop (rest : code) : code :=
  Sassert stack_end_lt_next :: Sif next_pred_ne_stack_end pop_and_jump :: rest.

(** The cleanup block of line [lineno] is where its label says. *)
Definition block_linked (fn : code) (lineno : nat) : Prop :=
  exists c, find_label (destructor lineno) fn
            = Some (Sblock lineno :: Sgoto_return_label :: c).

(** *** A function written with the macros *)

(** The macros a function uses after [MAKE_DESTRUCTOR_STACK], each paired
    with the line it is written on. *)
Inductive macro : Type :=
| push_destructor
| begin_scope
| end_scope
| end_scope_and_break
| end_scope_and_return (ret : Z).

#[global] Instance macro_eq_dec : EqDecision macro.
Proof. solve_decision. Defined.

Definition expand (line : nat * macro) : code :=
  match line with
  | (LINE, push_destructor) => PUSH_DESTRUCTOR LINE
  | (_, begin_scope) => BEGIN_SCOPE
  | (LINE, end_scope) => END_SCOPE LINE
  | (LINE, end_scope_and_break) => END_SCOPE_AND_BREAK LINE
  | (LINE, end_scope_and_return ret) => END_SCOPE_AND_RETURN LINE ret
  end.

Fixpoint expand_all (text : list (nat * macro)) : code :=
  match text with
  | [] => []
  | line :: text' => expand line ++ expand_all text'
  end.

Definition function_body (n : Z) (text : list (nat * macro)) : code :=
  MAKE_DESTRUCTOR_STACK n ++ expand_all text.

(** The lines that paste a [destructor ## lineno] label, and those that paste
    a [return ## lineno] label. *)
Fixpoint push_lines (text : list (nat * macro)) : list nat :=
  match text with
  | [] => []
  | (LINE, push_destructor) :: text' => LINE :: push_lines text'
  | _ :: text' => push_lines text'
  end.

Fixpoint scope_lines (text : list (nat * macro)) : list nat :=
  match text with
  | [] => []
  | (LINE, (end_scope | end_scope_and_break | end_scope_and_return _)) :: text' =>
      LINE :: scope_lines text'
  | _ :: text' => scope_lines text'
  end.

(** C rejects a function that defines a label twice. *)
Definition well_formed (text : list (nat * macro)) : Prop :=
  NoDup (push_lines text) /\ NoDup (scope_lines text).

(** What follows the loop of [END_SCOPE__] inside the macro that uses it. *)
Definition after_loop (m : macro) : code :=
  match m with
  | end_scope_and_break => [ Sbreak ]
  | end_scope_and_return ret => [ Sreturn ret ]
  | _ => []
  end.

Definition unwinds (m : macro) : Prop :=
  match m with
  | end_scope | end_scope_and_break | end_scope_and_return _ => True
  | _ => False
  end.

(** The cells below the cursor: the labels pushed and not yet popped. *)
Definition pending (f : frame) : list (option label) :=
  take (Z.to_nat (next_label_address f)) (destructor_label_addresses f).

(** The cells that pushing the blocks of [lines], in that order, fills. *)
Definition entries (lines : list nat) : list (option label) :=
  (fun lineno => Some (destructor lineno)) <$> lines.

(** The frame [END_SCOPE] at line [LINE] leaves when it pops the entries of
    [lines]: their blocks ran from the last pushed to the first, the cursor
    is one above the marker. *)
Definition unwound (LINE : nat) (lines : list nat) (f : frame) : frame :=
  Frame (destructor_label_addresses f) (Some (return_ LINE))
        (destructor_label_address_stack_end f + 1)
        (destructor_label_address_stack_end f)
        (executed f ++ reverse lines).

(** [PUSH_DESTRUCTOR] at each of [lines]. *)
Definition pushes (lines : list nat) : list (nat * macro) :=
  (fun lineno => (lineno, push_destructor)) <$> lines.

(** Pushes, [BEGIN_SCOPE], pushes, [END_SCOPE], and what follows. *)
Definition scoped_text (ks js : list nat) (BEGIN LINE : nat)
           (after : list (nat * macro)) : list (nat * macro) :=
  pushes ks ++ (BEGIN, begin_scope) :: pushes js ++ (LINE, end_scope) :: after.

(** The same up to and including [END_SCOPE]. *)
Definition scoped_done (ks js : list nat) (BEGIN LINE : nat) :
  list (nat * macro) :=
  pushes ks ++ (BEGIN, begin_scope) :: pushes js ++ [(LINE, end_scope)].

(** The frame an outcome carries. *)
Definition frame_of (o : outcome) : option frame :=
  match o with
  | Running _ f | Aborted f | Returned _ f | Broke f | Done f => Some f
  | Undefined => None
  end.

(** *** Between two macros *)

(** The frame when control stands between the macros [done], already
    executed, and the macros [todo] of the function [done ++ todo] declared
    with [n] cells, entered when [start] had run: [ran] are the blocks run
    since, [pend] the lines of the pending entries, oldest first.  Together
    they are the lines pushed so far, each once. *)
Record between (n : Z) (start : list nat) (done todo : list (nat * macro))
       (ran pend : list nat) (f : frame) : Prop := Between {
  between_capacity : capacity f = n;
  between_bounds : 0 <= next_label_address f <= capacity f;
  between_pending : pending f = entries pend;
  between_executed : executed f = start ++ ran;
  between_pushed : ran ++ pend ≡ₚ push_lines done;
  between_well_formed : well_formed (done ++ todo)
}.

(** Where a run ends, and with what account of the blocks. *)
Definition settles (n : Z) (start : list nat) (text : list (nat * macro))
           (o : outcome) : Prop :=
  match o with
  | Done f | Broke f =>
      exists done todo ran pend,
        text = done ++ todo /\ between n start done todo ran pend f
  | Returned _ f =>
      exists done todo ran,
        text = done ++ todo /\ between n start done todo ran [] f
  | Aborted f => exists ran, executed f = start ++ ran /\ NoDup ran
  | Running _ _ | Undefined => False
  end.

(** *** Statement by statement *)

(** How the statements of the macros follow one another: a cleanup block is
    only behind its own label, that label only behind the [goto] that jumps
    over the block, and the pre-decrement of the cursor is followed by the
    assertion that checks it. *)
Definition follows (prev s : stmt) : Prop :=
  match s with
  | Sblock lineno => prev = Slabel (destructor lineno)
  | Slabel (destructor lineno) => prev = Sgoto (after_destructor lineno)
  | _ =>
      match prev with
      | Spredecrement_next => s = Sassert base_le_next
      | _ => True
      end
  end.

(** The statements behind [MAKE_DESTRUCTOR_STACK]: no further declaration,
    no [goto] but the one over a block, no [if] but the one that pops. *)
Definition plain (s : stmt) : Prop :=
  match s with
  | Sdeclare_array _ => False
  | Sgoto l => exists lineno, l = after_destructor lineno
  | Sreturn_label_to l => exists lineno, l = return_ lineno
  | Sif _ body => body = pop_and_jump
  | _ => True
  end.

Fixpoint chained (prev : stmt) (c : code) : Prop :=
  match c with
  | [] => prev <> Spredecrement_next
  | s :: c' => follows prev s /\ plain s /\ chained s c'
  end.

(** Control is not in front of the label of a block: it does not fall into
    one. *)
Definition entered (c : code) : Prop :=
  match c with
  | Slabel (destructor _) :: _ => False
  | _ => True
  end.

Definition return_label_ok (f : frame) : Prop :=
  match return_label_address f with
  | Some (return_ _) | None => True
  | Some _ => False
  end.

(** What holds of code and frame wherever control is, once
    [MAKE_DESTRUCTOR_STACK(n)] is done.  The cursor is inside the array or at
    its end; it is one below the base only in front of the assertion that
    follows the pre-decrement. *)
Record sound (n : Z) (c : code) (f : frame) : Prop := Sound {
  sound_capacity : capacity f = n;
  sound_top : next_label_address f <= capacity f;
  sound_base :
    0 <= next_label_address f
    \/ (next_label_address f = -1 /\ exists c', c = Sassert base_le_next :: c');
  sound_chained : exists prev, chained prev c;
  sound_entered : entered c;
  sound_return_label : return_label_ok f
}.

(** *** The effect of a whole macro *)

(** The line of the block a cell points to. *)
Definition line_of (cell : option label) : option nat :=
  match cell with
  | Some (destructor lineno) => Some lineno
  | _ => None
  end.

(** The lines of the pending entries from index [b] up to the cursor. *)
Definition popped (b : nat) (f : frame) : list nat :=
  omap line_of (drop b (pending f)).

Inductive unwinding : Type :=
| Unwound (f : frame)
| Unwinding_aborted (f : frame).

(** What [END_SCOPE] at line [LINE] does as a whole.  It sets the return
    label; its first assertion fails when the marker is not below the
    cursor; otherwise it pops down to the marker, and when the marker lies
    more than one below the base of the array it has popped every entry when
    the assertion after the pre-decrement fails. *)
Definition unwind_to_marker (LINE : nat) (f : frame) : unwinding :=
  if decide (next_label_address f <= destructor_label_address_stack_end f)
  then Unwinding_aborted (with_return_label (Some (return_ LINE)) f)
  else if decide (destructor_label_address_stack_end f < -1)
  then Unwinding_aborted
         (with_next (-1)
            (with_executed (executed f ++ reverse (popped 0 f))
               (with_return_label (Some (return_ LINE)) f)))
  else Unwound
         (unwound LINE
            (popped (Z.to_nat (destructor_label_address_stack_end f + 1)) f) f).

(** What the macros of [text] do one after the other, from frame [f]. *)
Fixpoint effects (text : list (nat * macro)) (f : frame) : outcome :=
  match text with
  | [] => Done f
  | (LINE, push_destructor) :: text' =>
      if decide (0 <= next_label_address f < capacity f)
      then effects text' (pushed LINE f)
      else Aborted f
  | (_, begin_scope) :: text' =>
      effects text' (with_stack_end (next_label_address f - 1) f)
  | (LINE, end_scope) :: text' =>
      match unwind_to_marker LINE f with
      | Unwound f' => effects text' f'
      | Unwinding_aborted f' => Aborted f'
      end
  | (LINE, end_scope_and_break) :: _ =>
      match unwind_to_marker LINE f with
      | Unwound f' => Broke f'
      | Unwinding_aborted f' => Aborted f'
      end
  | (LINE, end_scope_and_return ret) :: _ =>
      match unwind_to_marker LINE (with_stack_end (0 - 1) f) with
      | Unwound f' => Returned ret f'
      | Unwinding_aborted f' => Aborted f'
      end
  end.

(** The marker is inside the array or one below its base, and below the
    cursor: what [BEGIN_SCOPE] and a completed unwind leave. *)
Definition marker_set (f : frame) : Prop :=
  -1 <= destructor_label_address_stack_end f < next_label_address f.

(** The run ended and no assertion failed. *)
Definition ends_normally (o : outcome) : Prop :=
  match o with
  | Done _ | Broke _ | Returned _ _ => True
  | _ => False
  end.


(** Pushes, [BEGIN_SCOPE], pushes, [END_SCOPE_AND_BREAK], and what follows
    in the text. *)
Definition scoped_break_text (ks js : list nat) (BEGIN LINE : nat)
           (after : list (nat * macro)) : list (nat * macro) :=
  pushes ks ++ (BEGIN, begin_scope) :: pushes js
    ++ (LINE, end_scope_and_break) :: after.

(** ** Basic facts about the machine *)

Section Machine.

Variable fn : code.

Lemma run_S (fuel : nat) (c : code) (f : frame) :
  run fn (S fuel) c f =
  match step fn c f with
  | Running c' f' => run fn fuel c' f'
  | o => o
  end.
Proof. reflexivity. Qed.

(** Fuel adds up: run [a] statements, then [b] more. *)
Lemma run_add (a b : nat) (c : code) (f : frame) :
  run fn (a + b) c f =
  match run fn a c f with
  | Running c' f' => run fn b c' f'
  | o => o
  end.
Proof.
  revert c f. induction a as [|a IH]; intros c f; [reflexivity|].
  rewrite Nat.add_succ_l, !run_S.
  destruct (step fn c f); auto.
Qed.

Lemma run_then (a b : nat) (c c' : code) (f f' : frame) :
  run fn a c f = Running c' f' ->
  run fn (a + b) c f = run fn b c' f'.
Proof. intros H. rewrite run_add, H. reflexivity. Qed.

(** The last of [S fuel] statements is a step from where [fuel] led. *)
Lemma run_last (fuel : nat) (c : code) (f : frame) :
  run fn (S fuel) c f =
  match run fn fuel c f with
  | Running c' f' => step fn c' f'
  | o => o
  end.
Proof.
  replace (S fuel) with (fuel + 1)%nat by lia. rewrite run_add.
  destruct (run fn fuel c f) as [c' f'| | | | |]; try reflexivity.
  rewrite run_S. destruct (step fn c' f'); reflexivity.
Qed.

End Machine.

(** An outcome other than [Running] does not change with more fuel. *)
Lemma run_final_stable (fn : code) (a b : nat) (c : code) (f : frame) :
  final (run fn a c f) -> (a <= b)%nat -> run fn b c f = run fn a c f.
Proof.
  intros Hfin Hle. replace b with (a + (b - a))%nat by lia.
  rewrite run_add. destruct (run fn a c f); simpl in Hfin; tauto.
Qed.

(** ** Labels and where they lead *)

Lemma labels_app (a b : code) : labels (a ++ b) = labels a ++ labels b.
Proof.
  induction a as [|s a IH]; [reflexivity|].
  destruct s; simpl; rewrite ?IH; reflexivity.
Qed.

Lemma find_label_skip (l : label) (a b : code) :
  l ∉ labels a -> find_label l (a ++ b) = find_label l b.
Proof.
  induction a as [|s a IH]; intros Hl; [reflexivity|].
  destruct s; simpl in *; auto.
  rewrite not_elem_of_cons in Hl. destruct Hl as [Hne Hl].
  destruct (decide (l = l0)); [contradiction|auto].
Qed.

Lemma find_label_here (l : label) (c : code) :
  find_label l (Slabel l :: c) = Some c.
Proof. cbn [find_label]. by rewrite decide_True. Qed.

(** What [find_label] returns is the code behind the first occurrence of the
    label. *)
Lemma find_label_Some (l : label) (c c' : code) :
  find_label l c = Some c' -> exists a, c = a ++ Slabel l :: c' /\ l ∉ labels a.
Proof.
  revert c'. induction c as [|s c IH]; intros c' H; [discriminate|].
  destruct s; cbn [find_label] in H;
    try (destruct (IH _ H) as (a & -> & Ha);
         eexists (_ :: a); split; [reflexivity|exact Ha]).
  case_decide as Hl.
  - subst l0. injection H as <-. exists []. split; [reflexivity|apply not_elem_of_nil].
  - destruct (IH _ H) as (a & -> & Ha).
    exists (Slabel l0 :: a). split; [reflexivity|].
    cbn [labels]. rewrite not_elem_of_cons. tauto.
Qed.

(** ** What each macro does, statement by statement *)

Lemma eval_base_le_next (f : frame) :
  eval_cond base_le_next f = bool_decide (0 <= next_label_address f).
Proof. cbn [eval_cond]. case_bool_decide; lia. Qed.

Lemma eval_top_gt_next (f : frame) :
  eval_cond top_gt_next f = bool_decide (next_label_address f < capacity f).
Proof. cbn [eval_cond]. case_bool_decide; lia. Qed.

Lemma eval_stack_end_lt_next (f : frame) :
  eval_cond stack_end_lt_next f =
  bool_decide (destructor_label_address_stack_end f < next_label_address f).
Proof. cbn [eval_cond]. case_bool_decide; lia. Qed.

Lemma eval_next_pred_ne_stack_end (f : frame) :
  eval_cond next_pred_ne_stack_end f =
  bool_decide (next_label_address f - 1 <> destructor_label_address_stack_end f).
Proof. cbn [eval_cond]. case_bool_decide; lia. Qed.

Lemma cell_at_next_inside (f : frame) :
  0 <= next_label_address f < capacity f ->
  cell_at_next f = destructor_label_addresses f !! Z.to_nat (next_label_address f).
Proof.
  intros H. unfold cell_at_next.
  replace (0 <=? next_label_address f) with true by lia.
  replace (next_label_address f <? capacity f) with true by lia.
  reflexivity.
Qed.

Lemma cell_at_next_is_Some (f : frame) :
  0 <= next_label_address f < capacity f -> is_Some (cell_at_next f).
Proof.
  intros H. rewrite cell_at_next_inside by assumption.
  apply lookup_lt_is_Some. unfold capacity in H. lia.
Qed.

(** Unfolds one statement of the machine. *)
Ltac one_step :=
  rewrite run_S;
  cbn [step app MAKE_DESTRUCTOR_STACK PUSH_DESTRUCTOR__ PUSH_DESTRUCTOR_
       PUSH_DESTRUCTOR BEGIN_SCOPE END_SCOPE__ END_SCOPE_ END_SCOPE
       END_SCOPE_AND_BREAK END_SCOPE_AND_RETURN pop_and_jump jump];
  rewrite ?eval_base_le_next, ?eval_top_gt_next, ?eval_stack_end_lt_next,
    ?eval_next_pred_ne_stack_end.

Ltac fields :=
  unfold capacity in *;
  cbn [destructor_label_addresses return_label_address next_label_address
       destructor_label_address_stack_end executed
       with_array with_return_label with_next with_stack_end with_executed] in *.

Section Macros.

Variable fn : code.

Lemma exec_MAKE (n : Z) (rest : code) (f : frame) :
  0 <= n ->
  run fn 3 (MAKE_DESTRUCTOR_STACK n ++ rest) f = Running rest (made n f).
Proof.
  intros Hn. one_step. replace (n <? 0) with false by lia.
  do 2 one_step. reflexivity.
Qed.

Lemma exec_PUSH (lineno : nat) (rest0 rest : code) (f : frame) :
  find_label (after_destructor lineno) fn = Some rest ->
  0 <= next_label_address f < capacity f ->
  run fn 4 (PUSH_DESTRUCTOR lineno ++ rest0) f = Running rest (pushed lineno f).
Proof.
  intros Hl Hin.
  one_step. rewrite bool_decide_eq_true_2 by lia.
  one_step. rewrite bool_decide_eq_true_2 by lia.
  one_step. destruct (cell_at_next_is_Some f Hin) as [x ->].
  one_step. rewrite Hl. reflexivity.
Qed.

Lemma exec_PUSH_full (lineno : nat) (rest0 : code) (f : frame) :
  0 <= next_label_address f -> capacity f <= next_label_address f ->
  run fn 2 (PUSH_DESTRUCTOR lineno ++ rest0) f = Aborted f.
Proof.
  intros H0 Hfull.
  one_step. rewrite bool_decide_eq_true_2 by lia.
  one_step. rewrite bool_decide_eq_false_2 by lia. reflexivity.
Qed.

Lemma exec_BEGIN (rest : code) (f : frame) :
  run fn 1 (BEGIN_SCOPE ++ rest) f =
  Running rest (with_stack_end (next_label_address f - 1) f).
Proof. reflexivity. Qed.

(** *** The loop of [END_SCOPE__] *)

Variable LINE : nat.
Variable rest : code.
Hypothesis return_linked : find_label (return_ LINE) fn = Some (unwind_loop rest).

(** One turn: the top entry is popped, its block runs and jumps back. *)
Lemma loop_turn (lineno : nat) (f : frame) :
  return_label_address f = Some (return_ LINE) ->
  block_linked fn lineno ->
  destructor_label_address_stack_end f < next_label_address f - 1 ->
  1 <= next_label_address f ->
  destructor_label_addresses f !! Z.to_nat (next_label_address f - 1)
    = Some (Some (destructor lineno)) ->
  run fn 7 (unwind_loop rest) f =
  Running (unwind_loop rest)
    (with_executed (executed f ++ [lineno])
       (with_next (next_label_address f - 1) f)).
Proof.
  intros Hret [c Hc] Hend Hpos Hcell. unfold unwind_loop.
  one_step. rewrite bool_decide_eq_true_2 by lia.
  one_step. rewrite bool_decide_eq_true_2 by lia.
  one_step. one_step. fields. rewrite bool_decide_eq_true_2 by lia.
  one_step. rewrite cell_at_next_inside.
  2:{ fields. apply lookup_lt_Some in Hcell. lia. }
  fields. rewrite Hcell. cbn [jump]. rewrite Hc.
  one_step. one_step. fields. rewrite Hret. cbn [jump]. rewrite return_linked. reflexivity.
Qed.

(** The way out: the cursor is one above the marker. *)
Lemma loop_exit (f : frame) :
  destructor_label_address_stack_end f = next_label_address f - 1 ->
  run fn 2 (unwind_loop rest) f = Running rest f.
Proof.
  intros Hend. unfold unwind_loop.
  one_step. rewrite bool_decide_eq_true_2 by lia.
  one_step. rewrite bool_decide_eq_false_2 by lia. reflexivity.
Qed.

(** The array is empty and the marker lies more than one below its base: the
    pre-decrement leaves the array and the second assertion fails. *)
Lemma loop_abort_base (f : frame) :
  next_label_address f = 0 ->
  destructor_label_address_stack_end f < -1 ->
  run fn 4 (unwind_loop rest) f = Aborted (with_next (-1) f).
Proof.
  intros Hnext Hend. unfold unwind_loop.
  one_step. rewrite bool_decide_eq_true_2 by lia.
  one_step. rewrite bool_decide_eq_true_2 by lia.
  one_step. one_step. fields. rewrite bool_decide_eq_false_2 by lia.
  rewrite Hnext. reflexivity.
Qed.

(** Entries [lines], stored from index [b] up to the cursor, are popped from
    the top and their blocks run in that order. *)
Lemma loop_turns (lines : list nat) (b : nat) (f : frame) :
  return_label_address f = Some (return_ LINE) ->
  (forall lineno, lineno ∈ lines -> block_linked fn lineno) ->
  (forall (i : nat) lineno, lines !! i = Some lineno ->
     destructor_label_addresses f !! (b + i)%nat = Some (Some (destructor lineno))) ->
  next_label_address f = Z.of_nat b + Z.of_nat (length lines) ->
  destructor_label_address_stack_end f < Z.of_nat b ->
  run fn (7 * length lines) (unwind_loop rest) f =
  Running (unwind_loop rest)
    (with_executed (executed f ++ reverse lines) (with_next (Z.of_nat b) f)).
Proof.
  revert f. induction lines as [|lineno lines IH] using rev_ind;
    intros f Hret Hlinked Hcells Hnext Hend.
  - cbn [length Nat.mul run reverse]. rewrite app_nil_r.
    destruct f; fields. f_equal. unfold with_next, with_executed; fields.
    f_equal. cbn [length] in Hnext. lia.
  - rewrite length_app in *. cbn [length] in *.
    replace (7 * (length lines + 1))%nat with (7 + 7 * length lines)%nat by lia.
    erewrite run_then.
    2:{ apply (loop_turn lineno); auto.
        - apply Hlinked. set_solver.
        - lia.
        - lia.
        - replace (Z.to_nat (next_label_address f - 1))
            with (b + length lines)%nat by lia.
          apply Hcells. by rewrite lookup_app_r, Nat.sub_diag by lia. }
    rewrite IH; fields; auto.
    + rewrite reverse_app, <- app_assoc. reflexivity.
    + intros l Hl. apply Hlinked. set_solver.
    + intros i l Hi. apply Hcells. by rewrite lookup_app_l by (by eapply lookup_lt_Some).
    + lia.
Qed.

End Macros.

(** ** A function written with the macros *)

Lemma expand_all_app (a b : list (nat * macro)) :
  expand_all (a ++ b) = expand_all a ++ expand_all b.
Proof.
  induction a as [|line a IH]; [reflexivity|].
  cbn [expand_all app]. rewrite IH. apply app_assoc.
Qed.

Lemma push_lines_app (a b : list (nat * macro)) :
  push_lines (a ++ b) = push_lines a ++ push_lines b.
Proof.
  induction a as [|[LINE m] a IH]; [reflexivity|].
  destruct m; cbn [push_lines app]; rewrite IH; reflexivity.
Qed.

Lemma scope_lines_app (a b : list (nat * macro)) :
  scope_lines (a ++ b) = scope_lines a ++ scope_lines b.
Proof.
  induction a as [|[LINE m] a IH]; [reflexivity|].
  destruct m; cbn [scope_lines app]; rewrite IH; reflexivity.
Qed.

Lemma labels_expand_all (text : list (nat * macro)) (l : label) :
  l ∈ labels (expand_all text) ->
  match l with
  | destructor lineno | after_destructor lineno => lineno ∈ push_lines text
  | return_ lineno => lineno ∈ scope_lines text
  end.
Proof.
  induction text as [|[LINE m] text IH]; cbn [expand_all]; intros Hl.
  - by apply elem_of_nil in Hl.
  - rewrite labels_app, elem_of_app in Hl. destruct Hl as [Hl|Hl].
    + destruct m; cbn in Hl;
        repeat (apply elem_of_cons in Hl as [->|Hl]);
        try (by apply elem_of_nil in Hl);
        cbn [push_lines scope_lines]; apply list_elem_of_here.
    + specialize (IH Hl).
      destruct m, l; cbn [push_lines scope_lines]; try assumption;
        by apply list_elem_of_further.
Qed.

Section Linking.

Variable n : Z.
Variables before after : list (nat * macro).
Variable LINE : nat.

Lemma find_after_destructor :
  LINE ∉ push_lines before ->
  find_label (after_destructor LINE)
    (function_body n (before ++ (LINE, push_destructor) :: after))
  = Some (expand_all after).
Proof.
  intros Hfresh. unfold function_body.
  rewrite find_label_skip by (cbn; apply not_elem_of_nil).
  rewrite expand_all_app, find_label_skip.
  2:{ intros Hl. apply labels_expand_all in Hl. contradiction. }
  cbn [expand_all expand PUSH_DESTRUCTOR PUSH_DESTRUCTOR_ PUSH_DESTRUCTOR__ app
       find_label].
  rewrite decide_False by discriminate. by rewrite decide_True.
Qed.

Lemma find_destructor :
  LINE ∉ push_lines before ->
  find_label (destructor LINE)
    (function_body n (before ++ (LINE, push_destructor) :: after))
  = Some (Sblock LINE :: Sgoto_return_label
            :: Slabel (after_destructor LINE) :: expand_all after).
Proof.
  intros Hfresh. unfold function_body.
  rewrite find_label_skip by (cbn; apply not_elem_of_nil).
  rewrite expand_all_app, find_label_skip.
  2:{ intros Hl. apply labels_expand_all in Hl. contradiction. }
  cbn [expand_all expand PUSH_DESTRUCTOR PUSH_DESTRUCTOR_ PUSH_DESTRUCTOR__ app
       find_label].
  by rewrite decide_True.
Qed.

Lemma find_return (m : macro) :
  unwinds m ->
  LINE ∉ scope_lines before ->
  find_label (return_ LINE) (function_body n (before ++ (LINE, m) :: after))
  = Some (unwind_loop (after_loop m ++ expand_all after)).
Proof.
  intros Hm Hfresh. unfold function_body.
  rewrite find_label_skip by (cbn; apply not_elem_of_nil).
  rewrite expand_all_app, find_label_skip.
  2:{ intros Hl. apply labels_expand_all in Hl. contradiction. }
  destruct m; try contradiction;
    cbn [expand_all expand END_SCOPE_AND_RETURN END_SCOPE_AND_BREAK END_SCOPE
         END_SCOPE_ END_SCOPE__ app find_label after_loop];
    by rewrite decide_True.
Qed.

End Linking.

(** Every pushed line of a well-formed text has its block linked. *)
Lemma pushed_line_linked (n : Z) (text : list (nat * macro)) (lineno : nat) :
  NoDup (push_lines text) ->
  lineno ∈ push_lines text ->
  block_linked (function_body n text) lineno.
Proof.
  intros Hnodup Hin.
  assert (exists before after,
             text = before ++ (lineno, push_destructor) :: after
             /\ lineno ∉ push_lines before) as (before & after & -> & Hfresh).
  { clear Hnodup. induction text as [|[LINE m] text IH]; [by apply elem_of_nil in Hin|].
    destruct (decide (LINE = lineno /\ m = push_destructor)) as [[-> ->]|Hne].
    - exists [], text. split; [reflexivity|apply not_elem_of_nil].
    - assert (lineno ∈ push_lines text) as Hin'.
      { destruct m; cbn [push_lines] in Hin; auto.
        apply elem_of_cons in Hin as [->|]; tauto. }
      destruct (IH Hin') as (before & after & -> & Hfresh).
      destruct (decide (lineno ∈ push_lines [(LINE, m)])) as [Hhere|Hnot].
      + destruct m; cbn in Hhere; try by apply elem_of_nil in Hhere.
        apply list_elem_of_singleton in Hhere as ->. tauto.
      + exists ((LINE, m) :: before), after. split; [reflexivity|].
        change ((LINE, m) :: before) with ([(LINE, m)] ++ before).
        rewrite push_lines_app, not_elem_of_app. tauto. }
  eexists. by apply find_destructor.
Qed.

(** ** The pending entries *)

Lemma entries_app (a b : list nat) : entries (a ++ b) = entries a ++ entries b.
Proof. apply fmap_app. Qed.

Lemma length_entries (lines : list nat) : length (entries lines) = length lines.
Proof. apply length_fmap. Qed.

Lemma length_pending (f : frame) :
  0 <= next_label_address f <= capacity f ->
  Z.of_nat (length (pending f)) = next_label_address f.
Proof.
  intros H. unfold pending, capacity in *. rewrite length_take_le by lia. lia.
Qed.

Lemma pending_cell (f : frame) (i : nat) (x : option label) :
  pending f !! i = Some x -> destructor_label_addresses f !! i = Some x.
Proof. unfold pending. rewrite lookup_take_Some. tauto. Qed.

Lemma pending_pushed (lineno : nat) (f : frame) :
  0 <= next_label_address f < capacity f ->
  pending (pushed lineno f) = pending f ++ [Some (destructor lineno)].
Proof.
  intros H. unfold pending, pushed. fields.
  replace (Z.to_nat (next_label_address f + 1))
    with (S (Z.to_nat (next_label_address f))) by lia.
  erewrite take_S_r by (apply list_lookup_insert_eq; lia).
  by rewrite take_insert_ge.
Qed.

Section Unwinding.

Variable fn : code.
Variable LINE : nat.
Variable rest : code.
Hypothesis return_linked : find_label (return_ LINE) fn = Some (unwind_loop rest).

Lemma exec_END_SCOPE (below lines : list nat) (f : frame) :
  (forall lineno, lineno ∈ lines -> block_linked fn lineno) ->
  0 <= next_label_address f <= capacity f ->
  pending f = entries (below ++ lines) ->
  destructor_label_address_stack_end f + 1 = Z.of_nat (length below) ->
  run fn (7 * length lines + 4) (END_SCOPE LINE ++ rest) f =
  Running rest (unwound LINE lines f).
Proof.
  intros Hlinked Hbounds Hpending Hend.
  assert (Hnext : next_label_address f
                  = Z.of_nat (length below) + Z.of_nat (length lines)).
  { rewrite <- (length_pending f), Hpending, length_entries, length_app by assumption.
    lia. }
  replace (7 * length lines + 4)%nat with (2 + (7 * length lines + 2))%nat by lia.
  erewrite run_then by (do 2 one_step; reflexivity).
  change (Sassert stack_end_lt_next :: Sif next_pred_ne_stack_end pop_and_jump :: rest)
    with (unwind_loop rest).
  erewrite run_then.
  2:{ apply (loop_turns fn LINE rest return_linked lines (length below));
        fields; auto; [|lia].
      intros i lineno Hi. apply pending_cell. rewrite Hpending, entries_app.
      rewrite lookup_app_r by (rewrite length_entries; lia).
      rewrite length_entries, Nat.add_comm, Nat.add_sub.
      unfold entries. by rewrite list_lookup_fmap, Hi. }
  rewrite (loop_exit fn rest) by (fields; lia).
  unfold unwound. rewrite Hend. reflexivity.
Qed.

(** The marker is not below the cursor: [END_SCOPE] aborts at its first
    assertion. *)
Lemma exec_END_SCOPE_marker_above (f : frame) :
  next_label_address f <= destructor_label_address_stack_end f ->
  run fn 3 (END_SCOPE LINE ++ rest) f =
  Aborted (with_return_label (Some (return_ LINE)) f).
Proof.
  intros H. do 3 one_step. fields.
  rewrite bool_decide_eq_false_2 by lia. reflexivity.
Qed.

(** The marker is more than one below the base of the array: [END_SCOPE]
    pops every entry and aborts at its second assertion. *)
Lemma exec_END_SCOPE_marker_below (lines : list nat) (f : frame) :
  (forall lineno, lineno ∈ lines -> block_linked fn lineno) ->
  0 <= next_label_address f <= capacity f ->
  pending f = entries lines ->
  destructor_label_address_stack_end f < -1 ->
  run fn (7 * length lines + 6) (END_SCOPE LINE ++ rest) f =
  Aborted (with_next (-1)
             (with_executed (executed f ++ reverse lines)
                (with_return_label (Some (return_ LINE)) f))).
Proof.
  intros Hlinked Hbounds Hpending Hend.
  assert (Hnext : next_label_address f = Z.of_nat (length lines)).
  { by rewrite <- (length_pending f), Hpending, length_entries. }
  replace (7 * length lines + 6)%nat with (2 + (7 * length lines + 4))%nat by lia.
  erewrite run_then by (do 2 one_step; reflexivity).
  change (Sassert stack_end_lt_next :: Sif next_pred_ne_stack_end pop_and_jump :: rest)
    with (unwind_loop rest).
  erewrite run_then.
  2:{ apply (loop_turns fn LINE rest return_linked lines 0);
        fields; auto; [|lia].
      intros i lineno Hi. cbn [Nat.add]. apply pending_cell. rewrite Hpending.
      unfold entries. by rewrite list_lookup_fmap, Hi. }
  rewrite (loop_abort_base fn rest) by (fields; lia).
  reflexivity.
Qed.

(** The marker is one below the cursor: [END_SCOPE] pops nothing. *)
Lemma exec_END_SCOPE_marker_at_cursor (f : frame) :
  destructor_label_address_stack_end f = next_label_address f - 1 ->
  run fn 4 (END_SCOPE LINE ++ rest) f =
  Running rest (with_return_label (Some (return_ LINE)) f).
Proof.
  intros H. replace 4%nat with (2 + 2)%nat by reflexivity.
  erewrite run_then by (do 2 one_step; reflexivity).
  by apply (loop_exit fn rest).
Qed.

End Unwinding.

(** ** Between two macros *)

Lemma between_NoDup n start done todo ran pend f :
  between n start done todo ran pend f -> NoDup (ran ++ pend).
Proof.
  intros H. rewrite (between_pushed _ _ _ _ _ _ _ H).
  destruct (between_well_formed _ _ _ _ _ _ _ H) as [Hnodup _].
  rewrite push_lines_app in Hnodup. by apply NoDup_app in Hnodup as [? _].
Qed.

Lemma between_linked n start done todo ran pend f lineno :
  between n start done todo ran pend f ->
  lineno ∈ pend ->
  block_linked (function_body n (done ++ todo)) lineno.
Proof.
  intros H Hin. destruct (between_well_formed _ _ _ _ _ _ _ H) as [Hnodup _].
  apply pushed_line_linked; [assumption|].
  rewrite push_lines_app, elem_of_app. left.
  rewrite <- (between_pushed _ _ _ _ _ _ _ H), elem_of_app. by right.
Qed.

(** [MAKE_DESTRUCTOR_STACK(n)] leads in front of the first macro. *)
Lemma between_made (n : Z) (text : list (nat * macro)) (f : frame) :
  0 <= n -> well_formed text ->
  between n (executed f) [] text [] [] (made n f).
Proof.
  intros Hn Hwf. split; unfold made, pending; fields; auto.
  - rewrite length_replicate. lia.
  - rewrite length_replicate. lia.
  - by rewrite app_nil_r.
Qed.

(** Moving a macro from [todo] to [done]. *)
Lemma well_formed_shift (done todo : list (nat * macro)) (line : nat * macro) :
  well_formed (done ++ line :: todo) -> well_formed ((done ++ [line]) ++ todo).
Proof. by rewrite <- app_assoc. Qed.

Lemma between_PUSH n start done todo ran pend f LINE :
  between n start done ((LINE, push_destructor) :: todo) ran pend f ->
  next_label_address f < capacity f ->
  between n start (done ++ [(LINE, push_destructor)]) todo
          ran (pend ++ [LINE]) (pushed LINE f).
Proof.
  intros [Hcap Hbounds Hpend Hexec Hperm Hwf] Hroom. split.
  - unfold pushed. fields. by rewrite length_insert.
  - unfold pushed. fields. rewrite length_insert. lia.
  - rewrite pending_pushed, Hpend, entries_app by lia. reflexivity.
  - exact Hexec.
  - rewrite push_lines_app, app_assoc, Hperm. reflexivity.
  - by apply well_formed_shift.
Qed.

Lemma between_BEGIN n start done todo ran pend f LINE :
  between n start done ((LINE, begin_scope) :: todo) ran pend f ->
  between n start (done ++ [(LINE, begin_scope)]) todo ran pend
          (with_stack_end (next_label_address f - 1) f).
Proof.
  intros [Hcap Hbounds Hpend Hexec Hperm Hwf]. split; auto.
  - rewrite push_lines_app, Hperm. cbn [push_lines]. by rewrite app_nil_r.
  - by apply well_formed_shift.
Qed.

(** [END_SCOPE] with the marker at [length below - 1] leaves the entries of
    [below] pending. *)
Lemma between_END_SCOPE n start done todo ran below lines f LINE m :
  unwinds m ->
  between n start done ((LINE, m) :: todo) ran (below ++ lines) f ->
  destructor_label_address_stack_end f + 1 = Z.of_nat (length below) ->
  between n start (done ++ [(LINE, m)]) todo
          (ran ++ reverse lines) below (unwound LINE lines f).
Proof.
  intros Hm [Hcap Hbounds Hpend Hexec Hperm Hwf] Hend.
  assert (Hlen : next_label_address f
                 = Z.of_nat (length below) + Z.of_nat (length lines)).
  { rewrite <- (length_pending f), Hpend, length_entries, length_app by assumption.
    lia. }
  split; unfold unwound; fields; auto.
  - lia.
  - unfold pending in *. fields.
    rewrite Hend, Nat2Z.id.
    replace (take (length below) (destructor_label_addresses f))
      with (take (length below)
              (take (Z.to_nat (next_label_address f)) (destructor_label_addresses f)))
      by (rewrite take_take; f_equal; lia).
    rewrite Hpend, entries_app.
    by rewrite take_app_length' by (by rewrite length_entries).
  - rewrite Hexec. by rewrite app_assoc.
  - rewrite push_lines_app, <- Hperm.
    replace (push_lines [(LINE, m)]) with (@nil nat) by (by destruct m).
    rewrite app_nil_r, <- !app_assoc. f_equiv.
    rewrite reverse_Permutation. apply Permutation_app_comm.
  - by apply well_formed_shift.
Qed.

Lemma between_with_stack_end n start done todo ran pend f p :
  between n start done todo ran pend f ->
  between n start done todo ran pend (with_stack_end p f).
Proof. intros [? ? ? ? ? ?]. by split. Qed.

Lemma fresh_push_line (done todo : list (nat * macro)) (LINE : nat) :
  well_formed (done ++ (LINE, push_destructor) :: todo) ->
  LINE ∉ push_lines done.
Proof.
  intros [Hnodup _] Hin. rewrite push_lines_app in Hnodup.
  apply NoDup_app in Hnodup as (_ & Hdisjoint & _).
  apply (Hdisjoint _ Hin). cbn [push_lines]. apply list_elem_of_here.
Qed.

Lemma fresh_scope_line (done todo : list (nat * macro)) (LINE : nat) (m : macro) :
  unwinds m ->
  well_formed (done ++ (LINE, m) :: todo) ->
  LINE ∉ scope_lines done.
Proof.
  intros Hm [_ Hnodup] Hin. rewrite scope_lines_app in Hnodup.
  apply NoDup_app in Hnodup as (_ & Hdisjoint & _).
  apply (Hdisjoint _ Hin).
  destruct m; try contradiction; cbn [scope_lines]; apply list_elem_of_here.
Qed.

(** ** Running a whole function *)

Section Text.

Variable n : Z.
Variable start : list nat.

Lemma settles_final (text : list (nat * macro)) (o : outcome) :
  settles n start text o -> final o.
Proof. by destruct o. Qed.

(** [END_SCOPE] in front of [rest], whatever the marker: it pops down to the
    marker and goes on, or aborts. *)
Lemma unwinding_settles done todo ran pend f LINE m :
  unwinds m ->
  between n start done ((LINE, m) :: todo) ran pend f ->
  exists fuel,
    match run (function_body n (done ++ (LINE, m) :: todo)) fuel
              (END_SCOPE LINE ++ after_loop m ++ expand_all todo) f with
    | Running c f' =>
        c = after_loop m ++ expand_all todo /\
        exists below lines,
          pend = below ++ lines /\
          destructor_label_address_stack_end f + 1 = Z.of_nat (length below) /\
          f' = unwound LINE lines f
    | Aborted f' => exists ran', executed f' = start ++ ran' /\ NoDup ran'
    | _ => False
    end.
Proof.
  intros Hm Hbetween.
  pose proof (find_return n done todo LINE m Hm
                (fresh_scope_line _ _ _ _ Hm (between_well_formed _ _ _ _ _ _ _ Hbetween)))
    as Hreturn.
  pose proof (between_NoDup _ _ _ _ _ _ _ Hbetween) as Hnodup.
  pose proof (between_bounds _ _ _ _ _ _ _ Hbetween) as Hbounds.
  pose proof (between_pending _ _ _ _ _ _ _ Hbetween) as Hpend.
  pose proof (between_executed _ _ _ _ _ _ _ Hbetween) as Hexec.
  assert (Hlen : Z.of_nat (length pend) = next_label_address f).
  { by rewrite <- (length_pending f), Hpend, length_entries. }
  set (e := destructor_label_address_stack_end f).
  destruct (decide (next_label_address f <= e)) as [Habove|Hbelow].
  - exists 3%nat. erewrite exec_END_SCOPE_marker_above by eassumption.
    exists ran. fields. split; [assumption|]. by apply NoDup_app in Hnodup as [? _].
  - destruct (decide (e < -1)) as [Hlow|Hok].
    + exists (7 * length pend + 6)%nat.
      erewrite exec_END_SCOPE_marker_below; try eassumption.
      * exists (ran ++ reverse pend). fields. rewrite Hexec, app_assoc.
        split; [reflexivity|]. by rewrite reverse_Permutation.
      * intros lineno Hin. by eapply between_linked.
    + exists (7 * length (drop (Z.to_nat (e + 1)) pend) + 4)%nat.
      erewrite (exec_END_SCOPE _ _ _ Hreturn (take (Z.to_nat (e + 1)) pend)).
      * split; [reflexivity|]. eexists _, _. split; [|split; [|reflexivity]].
        -- symmetry. apply take_drop.
        -- rewrite length_take_le by lia. fold e. lia.
      * intros lineno Hin. eapply between_linked; [eassumption|].
        by eapply subseteq_drop.
      * assumption.
      * by rewrite take_drop.
      * rewrite length_take_le by lia. fold e. lia.
Qed.

(** From between any two macros the function runs to an end that
    [settles]. *)
Lemma todo_settles (todo : list (nat * macro)) :
  forall done ran pend f,
    between n start done todo ran pend f ->
    exists fuel,
      settles n start (done ++ todo)
        (run (function_body n (done ++ todo)) fuel (expand_all todo) f).
Proof.
  induction todo as [|[LINE m] todo IH]; intros done ran pend f Hbetween.
  { exists 1%nat. cbn. by exists done, [], ran, pend. }
  pose proof (between_well_formed _ _ _ _ _ _ _ Hbetween) as Hwf.
  assert (Hnext : forall f' ran' pend' a,
             run (function_body n (done ++ (LINE, m) :: todo)) a
                 (expand_all ((LINE, m) :: todo)) f
             = Running (expand_all todo) f' ->
             between n start (done ++ [(LINE, m)]) todo ran' pend' f' ->
             exists fuel,
               settles n start (done ++ (LINE, m) :: todo)
                 (run (function_body n (done ++ (LINE, m) :: todo)) fuel
                      (expand_all ((LINE, m) :: todo)) f)).
  { intros f' ran' pend' a Hrun Hbetween'.
    destruct (IH _ _ _ _ Hbetween') as [fuel Hfuel].
    rewrite <- app_assoc in Hfuel. cbn [app] in Hfuel.
    exists (a + fuel)%nat. by erewrite run_then. }
  assert (Hunwind : unwinds m -> forall p,
             exists fuel,
               match run (function_body n (done ++ (LINE, m) :: todo)) fuel
                         (END_SCOPE LINE ++ after_loop m ++ expand_all todo)
                         (with_stack_end p f) with
               | Running c f' =>
                   c = after_loop m ++ expand_all todo /\
                   exists below lines,
                     pend = below ++ lines /\
                     p + 1 = Z.of_nat (length below) /\
                     between n start (done ++ [(LINE, m)]) todo
                             (ran ++ reverse lines) below f'
               | Aborted f' => exists ran', executed f' = start ++ ran' /\ NoDup ran'
               | _ => False
               end).
  { intros Hm p.
    pose proof (between_with_stack_end _ _ _ _ _ _ _ p Hbetween) as Hp.
    destruct (unwinding_settles _ _ _ _ _ _ _ Hm Hp) as [fuel Hfuel].
    exists fuel. destruct (run _ fuel _ _); try assumption.
    destruct Hfuel as (-> & below & lines & -> & Hend & ->).
    split; [reflexivity|]. exists below, lines.
    split; [reflexivity|split; [exact Hend|]].
    by apply between_END_SCOPE. }
  destruct m.
  - (* PUSH_DESTRUCTOR *)
    destruct (decide (next_label_address f < capacity f)) as [Hroom|Hfull].
    + eapply (Hnext _ _ _ 4%nat); [|by apply between_PUSH].
      apply exec_PUSH.
      * apply find_after_destructor. by eapply fresh_push_line.
      * pose proof (between_bounds _ _ _ _ _ _ _ Hbetween). lia.
    + exists 2%nat. cbn [expand_all expand].
      rewrite exec_PUSH_full.
      * exists ran. split; [by eapply between_executed|].
        pose proof (between_NoDup _ _ _ _ _ _ _ Hbetween) as Hnodup.
        by apply NoDup_app in Hnodup as [? _].
      * apply (between_bounds _ _ _ _ _ _ _ Hbetween).
      * lia.
  - (* BEGIN_SCOPE *)
    eapply (Hnext _ _ _ 1%nat); [|by apply between_BEGIN]. reflexivity.
  - (* END_SCOPE *)
    destruct (Hunwind I (destructor_label_address_stack_end f)) as [fuel Hfuel].
    replace (with_stack_end (destructor_label_address_stack_end f) f) with f
      in Hfuel by (by destruct f).
    cbn [after_loop app] in Hfuel.
    destruct (run _ fuel _ _) as [c f'| f'| | | |] eqn:Hrun; try contradiction.
    + destruct Hfuel as (-> & below & lines & -> & Hend & Hbetween').
      by eapply (Hnext _ _ _ fuel).
    + exists fuel. cbn [expand_all expand]. by rewrite Hrun.
  - (* END_SCOPE_AND_BREAK *)
    destruct (Hunwind I (destructor_label_address_stack_end f)) as [fuel Hfuel].
    replace (with_stack_end (destructor_label_address_stack_end f) f) with f
      in Hfuel by (by destruct f).
    cbn [after_loop] in Hfuel.
    destruct (run _ fuel _ _) as [c f'| f'| | | |] eqn:Hrun; try contradiction.
    + destruct Hfuel as (-> & below & lines & -> & Hend & Hbetween').
      exists (fuel + 1)%nat. cbn [expand_all expand]. unfold END_SCOPE_AND_BREAK.
      rewrite <- app_assoc. erewrite run_then by eassumption.
      cbn. eexists (done ++ [_]), todo, _, _.
      split; [by rewrite <- app_assoc|eassumption].
    + exists fuel. cbn [expand_all expand]. unfold END_SCOPE_AND_BREAK.
      rewrite <- app_assoc. by rewrite Hrun.
  - (* END_SCOPE_AND_RETURN *)
    destruct (Hunwind I (0 - 1)) as [fuel Hfuel].
    cbn [after_loop] in Hfuel.
    destruct (run _ fuel _ _) as [c f'| f'| | | |] eqn:Hrun; try contradiction.
    + destruct Hfuel as (-> & below & lines & -> & Hend & Hbetween').
      exists (1 + (fuel + 1))%nat.
      cbn [expand_all expand]. unfold END_SCOPE_AND_RETURN.
      rewrite <- app_comm_cons, <- app_assoc.
      erewrite run_then by reflexivity.
      erewrite run_then by eassumption.
      cbn. eexists (done ++ [_]), todo, _.
      split; [by rewrite <- app_assoc|].
      assert (below = []) as <- by (apply length_zero_iff_nil; lia).
      eassumption.
    + exists (1 + fuel)%nat.
      cbn [expand_all expand]. unfold END_SCOPE_AND_RETURN.
      rewrite <- app_comm_cons, <- app_assoc.
      erewrite run_then by reflexivity. by rewrite Hrun.
Qed.

End Text.

(** A function runs to an end that [settles]. *)
Lemma function_settles (n : Z) (text : list (nat * macro)) (f0 : frame) :
  0 <= n -> well_formed text ->
  exists fuel,
    settles n (executed f0) text (exec (function_body n text) fuel f0).
Proof.
  intros Hn Hwf.
  destruct (todo_settles n (executed f0) text [] [] [] (made n f0)
              (between_made n text f0 Hn Hwf)) as [fuel Hfuel].
  exists (3 + fuel)%nat. unfold exec.
  unfold function_body at 2. erewrite run_then by by apply exec_MAKE.
  exact Hfuel.
Qed.

(** ** Runs of pushes *)

Lemma push_lines_pushes (lines : list nat) : push_lines (pushes lines) = lines.
Proof.
  induction lines as [|l lines IH]; [reflexivity|].
  change (pushes (l :: lines)) with ((l, push_destructor) :: pushes lines).
  cbn [push_lines]. by rewrite IH.
Qed.

Lemma scope_lines_pushes (lines : list nat) : scope_lines (pushes lines) = [].
Proof.
  induction lines as [|l lines IH]; [reflexivity|].
  change (pushes (l :: lines)) with ((l, push_destructor) :: pushes lines).
  exact IH.
Qed.

(** [PUSH_DESTRUCTOR] at each of [lines], with room for all of them: four
    statements each, and the entries are pending in that order.  The marker
    and the return label are not touched. *)
Lemma run_pushes (n : Z) (start : list nat) (lines : list nat) :
  forall done todo ran pend f,
    between n start done (pushes lines ++ todo) ran pend f ->
    next_label_address f + Z.of_nat (length lines) <= capacity f ->
    exists f',
      run (function_body n (done ++ pushes lines ++ todo)) (4 * length lines)
          (expand_all (pushes lines ++ todo)) f
      = Running (expand_all todo) f'
      /\ between n start (done ++ pushes lines) todo ran (pend ++ lines) f'
      /\ destructor_label_address_stack_end f' = destructor_label_address_stack_end f
      /\ return_label_address f' = return_label_address f.
Proof.
  induction lines as [|LINE lines IH]; intros done todo ran pend f Hbetween Hroom.
  - exists f. rewrite !app_nil_r. by cbn.
  - cbn [length] in Hroom.
    pose proof (between_bounds _ _ _ _ _ _ _ Hbetween) as Hbounds.
    destruct (IH (done ++ [(LINE, push_destructor)]) todo ran (pend ++ [LINE])
                 (pushed LINE f)) as (f' & Hrun & Hbetween' & Hend & Hret).
    { apply between_PUSH; [exact Hbetween|lia]. }
    { unfold pushed. fields. rewrite length_insert. lia. }
    exists f'. rewrite <- !app_assoc in *. cbn [app] in *.
    split; [|split; [exact Hbetween'|split; [exact Hend|exact Hret]]].
    replace (4 * length (LINE :: lines))%nat with (4 + 4 * length lines)%nat
      by (cbn [length]; lia).
    erewrite run_then; [exact Hrun|].
    apply exec_PUSH; [|lia].
    apply find_after_destructor.
    eapply fresh_push_line, (between_well_formed _ _ _ _ _ _ _ Hbetween).
Qed.

(** ** The two exits, between macros *)

Lemma run_END_SCOPE n start done todo ran below lines f LINE :
  between n start done ((LINE, end_scope) :: todo) ran (below ++ lines) f ->
  destructor_label_address_stack_end f + 1 = Z.of_nat (length below) ->
  run (function_body n (done ++ (LINE, end_scope) :: todo))
      (7 * length lines + 4) (expand_all ((LINE, end_scope) :: todo)) f
  = Running (expand_all todo) (unwound LINE lines f).
Proof.
  intros Hbetween Hend.
  apply (exec_END_SCOPE _ LINE (expand_all todo)) with (below := below).
  - apply (find_return n done todo LINE end_scope I).
    eapply (fresh_scope_line _ _ _ end_scope I), between_well_formed, Hbetween.
  - intros lineno Hin. eapply between_linked; [exact Hbetween|].
    rewrite elem_of_app. by right.
  - eapply between_bounds, Hbetween.
  - eapply between_pending, Hbetween.
  - exact Hend.
Qed.

Lemma run_END_SCOPE_AND_RETURN n start done todo ran pend f LINE ret :
  between n start done ((LINE, end_scope_and_return ret) :: todo) ran pend f ->
  run (function_body n (done ++ (LINE, end_scope_and_return ret) :: todo))
      (7 * length pend + 6)
      (expand_all ((LINE, end_scope_and_return ret) :: todo)) f
  = Returned ret (unwound LINE pend (with_stack_end (0 - 1) f)).
Proof.
  intros Hbetween.
  pose proof (between_with_stack_end _ _ _ _ _ _ _ (0 - 1) Hbetween) as Hbetween'.
  replace (7 * length pend + 6)%nat with (1 + ((7 * length pend + 4) + 1))%nat by lia.
  cbn [expand_all expand]. unfold END_SCOPE_AND_RETURN.
  rewrite <- app_comm_cons, <- app_assoc.
  erewrite run_then by reflexivity.
  erewrite run_then.
  2:{ apply (exec_END_SCOPE _ LINE) with (below := []).
      - apply (find_return n done todo LINE (end_scope_and_return ret) I).
        eapply (fresh_scope_line _ _ _ (end_scope_and_return ret) I),
          between_well_formed, Hbetween.
      - intros lineno Hin. eapply between_linked; [exact Hbetween|exact Hin].
      - eapply between_bounds, Hbetween'.
      - eapply between_pending, Hbetween'.
      - reflexivity. }
  reflexivity.
Qed.

(** ** Pushes, a scope, pushes, the end of the scope *)

Section Scoped.

Variable n : Z.
Variables ks js : list nat.
Variables BEGIN LINE : nat.
Variable after : list (nat * macro).

Lemma scoped_text_done :
  scoped_text ks js BEGIN LINE after = scoped_done ks js BEGIN LINE ++ after.
Proof.
  unfold scoped_text, scoped_done. rewrite <- ?app_assoc. cbn [app].
  by rewrite <- ?app_assoc.
Qed.

Lemma run_scoped (f0 : frame) :
  well_formed (scoped_text ks js BEGIN LINE after) ->
  Z.of_nat (length ks) + Z.of_nat (length js) <= n ->
  exists f,
    exec (function_body n (scoped_text ks js BEGIN LINE after))
         (11 * length js + 4 * length ks + 8) f0
    = Running (expand_all after) f
    /\ between n (executed f0) (scoped_done ks js BEGIN LINE) after
               (reverse js) ks f
    /\ destructor_label_address_stack_end f = Z.of_nat (length ks) - 1
    /\ take (length ks + length js) (destructor_label_addresses f)
       = entries (ks ++ js).
Proof.
  intros Hwf Hroom. unfold scoped_text in *.
  pose proof (between_made n _ f0 ltac:(lia) Hwf) as H0.
  (* the pushes before the scope *)
  destruct (run_pushes n (executed f0) ks [] _ [] [] (made n f0) H0)
    as (f1 & Hrun1 & H1 & _ & _).
  { unfold made. fields. rewrite length_replicate. lia. }
  cbn [app] in Hrun1, H1.
  assert (Hnext1 : next_label_address f1 = Z.of_nat (length ks)).
  { rewrite <- (length_pending f1) by apply (between_bounds _ _ _ _ _ _ _ H1).
    by rewrite (between_pending _ _ _ _ _ _ _ H1), length_entries. }
  (* BEGIN_SCOPE *)
  pose proof (between_BEGIN _ _ _ _ _ _ _ _ H1) as H2.
  set (f2 := with_stack_end (next_label_address f1 - 1) f1) in H2.
  (* the pushes inside the scope *)
  destruct (run_pushes n (executed f0) js _ _ [] ks f2 H2)
    as (f3 & Hrun3 & H3 & Hend3 & _).
  { subst f2. fields. pose proof (between_capacity _ _ _ _ _ _ _ H1) as Hcap.
    unfold capacity in Hcap. lia. }
  (* END_SCOPE *)
  pose proof (run_END_SCOPE _ _ _ _ _ _ _ _ _ H3) as Hrun4.
  rewrite Hend3 in Hrun4. subst f2. fields.
  specialize (Hrun4 ltac:(lia)).
  rewrite <- ?app_assoc in Hrun3. rewrite <- ?app_assoc in Hrun4.
  cbn [app] in Hrun3, Hrun4.
  exists (unwound LINE js f3). split; [|split; [|split]].
  - replace (11 * length js + 4 * length ks + 8)%nat
      with (3 + (4 * length ks + (1 + (4 * length js + (7 * length js + 4)))))%nat
      by lia.
    unfold exec. unfold function_body at 2.
    erewrite run_then by (apply exec_MAKE; lia).
    erewrite run_then by exact Hrun1.
    erewrite run_then by reflexivity.
    erewrite run_then by exact Hrun3.
    exact Hrun4.
  - unfold scoped_done.
    replace (pushes ks ++ (BEGIN, begin_scope) :: pushes js ++ [(LINE, end_scope)])
      with (((pushes ks ++ [(BEGIN, begin_scope)]) ++ pushes js) ++ [(LINE, end_scope)])
      by (by rewrite <- !app_assoc).
    replace (reverse js) with ([] ++ reverse js) by reflexivity.
    apply between_END_SCOPE; [exact I|exact H3|].
    rewrite Hend3. fields. lia.
  - unfold unwound. fields. rewrite Hend3. fields. lia.
  - unfold unwound. fields.
    pose proof (between_pending _ _ _ _ _ _ _ H3) as Hpend.
    pose proof (length_pending f3 (between_bounds _ _ _ _ _ _ _ H3)) as Hlen.
    rewrite Hpend, length_entries, length_app in Hlen.
    unfold pending in Hpend. rewrite <- Hpend. f_equal. lia.
Qed.

End Scoped.

(** ** What has run only grows *)

Lemma jump_frame (fn : code) (target : option label) (f f' : frame) :
  frame_of (jump fn target f) = Some f' -> f' = f.
Proof.
  unfold jump. destruct target as [l|]; [|discriminate].
  destruct (find_label l fn); [|discriminate]. cbn. congruence.
Qed.

Lemma step_executed_grows (fn c : code) (f f' : frame) :
  frame_of (step fn c f) = Some f' -> executed f `prefix_of` executed f'.
Proof.
  destruct c as [|s c]; [cbn; intros [= <-]; reflexivity|].
  destruct s; cbn [step];
    repeat match goal with
           | |- context [if ?b then _ else _] => destruct b
           | |- context [match cell_at_next ?f with _ => _ end] =>
               destruct (cell_at_next f)
           end;
    try (intros H; apply jump_frame in H as ->; reflexivity);
    try discriminate;
    cbn; intros [= <-]; try reflexivity.
  by apply prefix_app_r.
Qed.

Lemma run_executed_grows (fn : code) (fuel : nat) (c : code) (f f' : frame) :
  frame_of (run fn fuel c f) = Some f' -> executed f `prefix_of` executed f'.
Proof.
  revert c f. induction fuel as [|fuel IH]; intros c f.
  - cbn. intros [= <-]. reflexivity.
  - rewrite run_S. pose proof (step_executed_grows fn c f) as Hstep.
    destruct (step fn c f) as [c1 f1| | | | |]; try apply Hstep.
    intros H. etrans; [by apply Hstep|by eapply IH].
Qed.

Lemma settles_account (n : Z) (start : list nat) (text : list (nat * macro))
      (o : outcome) :
  settles n start text o ->
  exists f ran, frame_of o = Some f /\ executed f = start ++ ran /\ NoDup ran.
Proof.
  destruct o as [c f|f| |ret f|f|f]; cbn [settles]; try contradiction.
  - intros (ran & Hexec & Hnodup). by exists f, ran.
  - intros (done & todo & ran & _ & Hbetween). exists f, ran.
    split; [reflexivity|]. split; [by eapply between_executed|].
    apply between_NoDup in Hbetween. by rewrite app_nil_r in Hbetween.
  - intros (done & todo & ran & pend & _ & Hbetween). exists f, ran.
    split; [reflexivity|]. split; [by eapply between_executed|].
    apply between_NoDup in Hbetween. by apply NoDup_app in Hbetween as [? _].
  - intros (done & todo & ran & pend & _ & Hbetween). exists f, ran.
    split; [reflexivity|]. split; [by eapply between_executed|].
    apply between_NoDup in Hbetween. by apply NoDup_app in Hbetween as [? _].
Qed.

(** At every moment of every run of a well-formed function, no block has run
    twice. *)
Lemma no_block_runs_twice (n : Z) (text : list (nat * macro)) (f0 : frame)
      (fuel : nat) (f : frame) :
  well_formed text ->
  frame_of (exec (function_body n text) fuel f0) = Some f ->
  exists ran, executed f = executed f0 ++ ran /\ NoDup ran.
Proof.
  intros Hwf Hf.
  destruct (decide (0 <= n)) as [Hn|Hn].
  - destruct (function_settles n text f0 Hn Hwf) as [fuel' Hsettles].
    pose proof (settles_final _ _ _ _ Hsettles) as Hfinal.
    apply settles_account in Hsettles as (f' & ran' & Hf' & Hexec' & Hnodup').
    assert (Hgrows : executed f `prefix_of` executed f').
    { unfold exec in *.
      destruct (Nat.le_ge_cases fuel fuel') as [Hle|Hge].
      - replace fuel' with (fuel + (fuel' - fuel))%nat in Hf' by lia.
        rewrite run_add in Hf'.
        destruct (run (function_body n text) fuel (function_body n text) f0)
          as [c1 f1| | | | |]; cbn in Hf; try discriminate;
          try (injection Hf as <-; cbn in Hf'; injection Hf' as <-; reflexivity).
        injection Hf as <-. by eapply run_executed_grows.
      - rewrite (run_final_stable _ fuel' fuel) in Hf by assumption.
        rewrite Hf' in Hf. by injection Hf as <-. }
    pose proof (run_executed_grows _ _ _ _ _ Hf) as [ran Hran].
    destruct Hgrows as [more Hmore].
    exists ran. split; [exact Hran|].
    rewrite Hmore, Hran, <- app_assoc in Hexec'.
    apply app_inv_head in Hexec'. subst ran'.
    by apply NoDup_app in Hnodup' as [? _].
  - exists []. rewrite app_nil_r. split; [|apply NoDup_nil_2].
    unfold exec in Hf. destruct fuel as [|fuel]; [by injection Hf as <-|].
    rewrite run_S in Hf. cbn [function_body MAKE_DESTRUCTOR_STACK app step] in Hf.
    replace (n <? 0) with true in Hf by lia. discriminate.
Qed.

(** ** Statement by statement: what holds wherever control is *)

Lemma chained_weaken (p q : stmt) (c : code) :
  (forall s, follows p s -> follows q s) ->
  q <> Spredecrement_next ->
  chained p c -> chained q c.
Proof. destruct c as [|s c]; cbn; [tauto|]. intros H _ (? & ? & ?). auto. Qed.

Lemma chained_behind (p s : stmt) (a b : code) :
  chained p (a ++ s :: b) -> chained s b.
Proof.
  revert p. induction a as [|s' a IH]; intros p; cbn; [tauto|].
  intros (_ & _ & H). by eapply IH.
Qed.

Lemma chained_entered (p : stmt) (c : code) :
  chained p c -> (forall l, p <> Sgoto l) -> entered c.
Proof.
  destruct c as [|s c]; [done|]. intros (Hfollows & _) Hp.
  destruct s as [| | | | | |l| | | | | | | | | |]; try done.
  destruct l; try done. cbn in Hfollows. by apply Hp in Hfollows.
Qed.

Lemma chained_expand_all (text : list (nat * macro)) (prev : stmt) :
  prev <> Spredecrement_next -> chained prev (expand_all text).
Proof.
  revert prev. induction text as [|[LINE m] text IH]; intros prev Hprev; [done|].
  destruct m; cbn; destruct prev; repeat split; eauto; try done; by apply IH.
Qed.

(** A statement that ends the run without abort leaves the frame as it is,
    and is not the assertion on the cursor. *)
Lemma step_ends (fn c : code) (f : frame) :
  match step fn c f with
  | Done f' | Returned _ f' | Broke f' =>
      f' = f /\ forall c', c <> Sassert base_le_next :: c'
  | _ => True
  end.
Proof.
  destruct c as [|s c]; [by cbn|].
  destruct s; cbn [step]; unfold jump;
    repeat match goal with
           | |- context [if ?b then _ else _] => destruct b
           | |- context [match cell_at_next ?f with _ => _ end] =>
               destruct (cell_at_next f)
           | |- context [match ?t with Some _ => _ | None => _ end] => destruct t
           end;
    try exact I; by split.
Qed.

Section Sound.

Variable n : Z.
Variable text : list (nat * macro).

Lemma label_leads_to_chained (l : label) (c : code) :
  find_label l (function_body n text) = Some c -> chained (Slabel l) c.
Proof.
  unfold function_body.
  rewrite find_label_skip by (cbn; apply not_elem_of_nil).
  intros H. apply find_label_Some in H as (a & Ha & _).
  eapply chained_behind. rewrite <- Ha.
  by apply (chained_expand_all text Sbreak).
Qed.

Lemma jump_sound (target : option label) (c c' : code) (f f' : frame) :
  sound n c f ->
  (0 <= next_label_address f) ->
  jump (function_body n text) target f = Running c' f' ->
  sound n c' f'.
Proof.
  intros [Hcap Htop Hbase Hchained Hentered Hret] Hnext Hjump.
  unfold jump in Hjump. destruct target as [l|]; [|discriminate].
  destruct (find_label l (function_body n text)) as [c1|] eqn:Hl; [|discriminate].
  injection Hjump as -> ->. apply label_leads_to_chained in Hl.
  split; auto.
  - by exists (Slabel l).
  - eapply chained_entered; [exact Hl|discriminate].
Qed.

(** One statement keeps what holds. *)
Lemma step_sound (c c' : code) (f f' : frame) :
  sound n c f ->
  step (function_body n text) c f = Running c' f' ->
  sound n c' f'.
Proof.
  intros Hsound Hstep.
  destruct c as [|s c]; [discriminate|].
  pose proof Hsound as [Hcap Htop Hbase [prev (Hfollows & Hplain & Hchained)] Hentered Hret].
  assert (Hfall : (forall l, s <> Sgoto l) ->
                  forall f1,
                    capacity f1 = capacity f ->
                    next_label_address f1 <= capacity f1 ->
                    (0 <= next_label_address f1
                     \/ (next_label_address f1 = -1 /\ s = Spredecrement_next)) ->
                    return_label_ok f1 ->
                    sound n c f1).
  { intros Hs f1 Hcap1 Htop1 Hbase1 Hret1. split; auto.
    - congruence.
    - destruct Hbase1 as [?|[Hlow ->]]; [by left|right].
      split; [exact Hlow|]. destruct c as [|s c]; [by cbn in Hchained|].
      destruct Hchained as (Hf & _). exists c.
      destruct s as [| | | | | |l| | | | | | | | | |]; cbn in Hf;
        try discriminate; try congruence.
      destruct l; congruence.
    - by exists s.
    - by eapply chained_entered. }
  assert (Hnext : s <> Sassert base_le_next -> 0 <= next_label_address f).
  { intros Hs. destruct Hbase as [?|(_ & c0 & [= -> ->])]; [assumption|done]. }
  assert (Hfell : forall f1,
             Running c f1 = Running c' f' ->
             capacity f1 = capacity f ->
             next_label_address f1 = next_label_address f ->
             (s = Sassert base_le_next -> 0 <= next_label_address f) ->
             (forall l, s <> Sgoto l) ->
             s <> Spredecrement_next ->
             return_label_ok f1 ->
             sound n c' f').
  { intros f1 [= <- <-] Hcap1 Hnext1 Hassert Hs Hs' Hret1.
    apply Hfall; auto; [lia|]. left. rewrite Hnext1.
    destruct Hbase as [?|(_ & c0 & [= -> ->])]; auto. }
  destruct s; cbn [step] in Hstep; cbn [plain] in Hplain;
    try (by eapply Hfell; [exact Hstep|..]);
    try discriminate.
  - contradiction.
  - injection Hstep as <- <-. apply Hfall; auto; try done; fields; lia.
  - destruct (eval_cond c0 f) eqn:Hcond; [|discriminate].
    eapply Hfell; [exact Hstep|..]; try done.
    intros [= ->]. cbn in Hcond. lia.
  - unfold cell_at_next in Hstep.
    destruct ((0 <=? next_label_address f) && (next_label_address f <? capacity f))
      eqn:Hin; [|discriminate].
    destruct (destructor_label_addresses f !! Z.to_nat (next_label_address f));
      [|discriminate].
    injection Hstep as <- <-.
    apply Hfall; auto; try done; fields; rewrite ?length_insert; lia.
  - eapply jump_sound; [exact Hsound|by apply Hnext|exact Hstep].
  - eapply jump_sound; [exact Hsound|by apply Hnext|exact Hstep].
  - eapply Hfell; [exact Hstep|..]; try done.
    destruct Hplain as [lineno ->]. done.
  - subst body. destruct (eval_cond c0 f).
    + injection Hstep as <- <-.
      split; [exact Hcap|exact Htop|left; by apply Hnext| |done|exact Hret].
      exists (Sif c0 pop_and_jump). cbn. repeat split; try done.
      eapply chained_weaken; [| |exact Hchained]; [|done].
      intros s. by destruct s as [| | | | | |[]| | | | | | | | | |].
    + eapply Hfell; [exact Hstep|..]; done.
  - injection Hstep as <- <-.
    assert (0 <= next_label_address f) by (by apply Hnext).
    apply Hfall; auto; try done; fields; try lia.
    destruct (decide (next_label_address f = 0)); [right|left]; [split|]; [lia|done|lia].
  - destruct (cell_at_next f) as [target|]; [|discriminate].
    eapply jump_sound; [exact Hsound|by apply Hnext|exact Hstep].
Qed.

(** Any number of statements keeps it; a run that ends without abort ends
    with the cursor inside the array or at its end. *)
Lemma run_sound (fuel : nat) (c : code) (f : frame) :
  sound n c f ->
  match run (function_body n text) fuel c f with
  | Running c' f' => sound n c' f'
  | Done f' | Returned _ f' | Broke f' =>
      capacity f' = n /\ 0 <= next_label_address f' <= capacity f'
  | Aborted _ | Undefined => True
  end.
Proof.
  revert c f. induction fuel as [|fuel IH]; intros c f Hsound; [exact Hsound|].
  rewrite run_S. pose proof (step_sound c) as Hstep.
  pose proof (step_ends (function_body n text) c f) as Hends.
  destruct (step (function_body n text) c f) as [c1 f1|f1| |ret f1|f1|f1] eqn:E;
    try exact I;
    [apply IH; by eapply Hstep|..];
    destruct Hends as [-> Hc], Hsound as [Hcap Htop Hbase _ _ _];
    (destruct Hbase as [?|(_ & c0 & ->)]; [split; [assumption|lia]|by destruct (Hc c0)]).
Qed.

Lemma made_sound (f0 : frame) :
  0 <= n -> sound n (expand_all text) (made n f0).
Proof.
  intros Hn. split; unfold made; fields; try done.
  - rewrite length_replicate. lia.
  - rewrite length_replicate. lia.
  - by left.
  - exists Sbreak. by apply chained_expand_all.
  - eapply chained_entered; [by apply (chained_expand_all text Sbreak)|done].
Qed.

End Sound.

Lemma jump_Running (fn : code) (target : option label) (c : code) (f f' : frame) :
  jump fn target f = Running c f' ->
  exists l, target = Some l /\ find_label l fn = Some c /\ f' = f.
Proof.
  unfold jump. destruct target as [l|]; [|discriminate].
  destruct (find_label l fn) as [c1|] eqn:Hl; [|discriminate].
  intros [= -> ->]. by exists l.
Qed.

(** Control comes in front of a cleanup block only by the computed [goto] of
    [END_SCOPE__], through the entry the cursor was just moved down to. *)
Lemma step_into_block (n : Z) (text : list (nat * macro))
      (c1 c : code) (f1 f : frame) (lineno : nat) :
  sound n c1 f1 ->
  step (function_body n text) c1 f1 = Running (Sblock lineno :: c) f ->
  exists c', c1 = Sgoto_popped :: c' /\ f = f1
             /\ cell_at_next f1 = Some (Some (destructor lineno)).
Proof.
  intros [_ _ _ [prev Hchained] Hentered Hret] Hstep.
  destruct c1 as [|s c1]; [discriminate|].
  destruct Hchained as (_ & Hplain & Hchained).
  assert (Hfell : forall f2, Running c1 f2 = Running (Sblock lineno :: c) f -> False).
  { intros f2 [= -> _]. destruct Hchained as (Hfollows & _). cbn in Hfollows.
    subst s. exact Hentered. }
  assert (Hlabel : forall l, find_label l (function_body n text)
                             = Some (Sblock lineno :: c) -> l = destructor lineno).
  { intros l Hl. apply label_leads_to_chained in Hl as (Hfollows & _).
    cbn in Hfollows. congruence. }
  destruct s; cbn [step] in Hstep; cbn [plain] in Hplain;
    try (by destruct (Hfell _ Hstep)); try discriminate.
  - destruct (n0 <? 0); [discriminate|by destruct (Hfell _ Hstep)].
  - destruct (eval_cond c0 f1); [by destruct (Hfell _ Hstep)|discriminate].
  - destruct (cell_at_next f1); [by destruct (Hfell _ Hstep)|discriminate].
  - apply jump_Running in Hstep as (l' & [= <-] & Hl & _).
    apply Hlabel in Hl. destruct Hplain as [k ->]. discriminate.
  - apply jump_Running in Hstep as (l' & Hl' & Hl & _).
    apply Hlabel in Hl. subst l'. unfold return_label_ok in Hret.
    by rewrite Hl' in Hret.
  - subst body. destruct (eval_cond c0 f1);
      [discriminate|by destruct (Hfell _ Hstep)].
  - destruct (cell_at_next f1) as [target|] eqn:Hcell; [|discriminate].
    apply jump_Running in Hstep as (l' & -> & Hl & ->).
    apply Hlabel in Hl. subst l'. by exists c1.
Qed.

(** ** The scenarios of the specification *)

(** Capacity 3; push A (line 1), push B (line 2); mark the scope; push C
    (line 3); [END_SCOPE] runs C and the cursor is back at 2; then
    [END_SCOPE_AND_RETURN] runs B, A and the cursor is at 0. *)
Example scenario_scoped_after_end_scope :
  exec scenario_scoped 27 entry_frame
  = Running (END_SCOPE_AND_RETURN 5 0)
      (Frame [Some (destructor 1); Some (destructor 2); Some (destructor 3)]
             (Some (return_ 4)) 2 1 [3%nat]).
Proof. reflexivity. Qed.

Example scenario_scoped_returns :
  exec scenario_scoped 47 entry_frame
  = Returned 0
      (Frame [Some (destructor 1); Some (destructor 2); Some (destructor 3)]
             (Some (return_ 5)) 0 (-1) [3; 2; 1]%nat).
Proof. reflexivity. Qed.

(** Capacity 2; push A (line 1), push B (line 2); [END_SCOPE_AND_RETURN]
    runs B, A. *)
Example scenario_direct_returns :
  exec scenario_direct 31 entry_frame
  = Returned 0
      (Frame [Some (destructor 1); Some (destructor 2)]
             (Some (return_ 3)) 0 (-1) [2; 1]%nat).
Proof. reflexivity. Qed.

(** * The statements of the specification *)

Ltac by_computation := apply (bool_decide_unpack _); vm_compute; exact I.

(** C1. A function declares [n] cells, pushes the cleanup blocks of [lines]
    (at most [n] of them) and leaves through [END_SCOPE_AND_RETURN]: it
    returns after [11 * N + 9] statements, the blocks have run in exactly the
    reverse of the order they were pushed in, each once, and the cursor is
    back at the base of the array. *)
Theorem full_unwind_runs_every_block_in_reverse
        (n : Z) (lines : list nat) (LINE : nat) (ret : Z) (f0 : frame) :
  NoDup lines ->
  Z.of_nat (length lines) <= n ->
  exists f,
    exec (function_body n (pushes lines ++ [(LINE, end_scope_and_return ret)]))
         (11 * length lines + 9) f0
    = Returned ret f
    /\ executed f = executed f0 ++ reverse lines
    /\ next_label_address f = 0.
Proof.
  intros Hnodup Hroom.
  set (text := pushes lines ++ [(LINE, end_scope_and_return ret)]).
  assert (Hwf : well_formed text).
  { split; subst text.
    - by rewrite push_lines_app, push_lines_pushes, app_nil_r.
    - rewrite scope_lines_app, scope_lines_pushes. apply NoDup_singleton. }
  pose proof (between_made n text f0 ltac:(lia) Hwf) as H0.
  destruct (run_pushes n (executed f0) lines [] _ [] [] (made n f0) H0)
    as (f1 & Hrun1 & H1 & _ & _).
  { unfold made. fields. rewrite length_replicate. lia. }
  cbn [app] in Hrun1, H1.
  pose proof (run_END_SCOPE_AND_RETURN _ _ _ _ _ _ _ _ _ H1) as Hrun2.
  exists (unwound LINE lines (with_stack_end (0 - 1) f1)).
  split; [|split].
  - replace (11 * length lines + 9)%nat
      with (3 + (4 * length lines + (7 * length lines + 6)))%nat by lia.
    unfold exec. unfold function_body at 2.
    erewrite run_then by (apply exec_MAKE; lia).
    erewrite run_then by exact Hrun1.
    exact Hrun2.
  - unfold unwound. fields.
    rewrite (between_executed _ _ _ _ _ _ _ H1). by rewrite app_nil_r.
  - reflexivity.
Qed.

Lemma full_unwind_runs_every_block_in_reverse_witness :
  exists f,
    exec (function_body 2 (pushes [10; 11]%nat ++ [(12%nat, end_scope_and_return 0)]))
         31 entry_frame
    = Returned 0 f
    /\ executed f = [11; 10]%nat
    /\ next_label_address f = 0.
Proof.
  apply (full_unwind_runs_every_block_in_reverse 2 [10; 11]%nat 12 0 entry_frame).
  - by_computation.
  - cbn. lia.
Defined.

(** C2. A function pushes the blocks of [ks], opens a scope with
    [BEGIN_SCOPE], pushes the blocks of [js] and reaches [END_SCOPE]: exactly
    the blocks of [js] run, last pushed first, the cursor is back at
    [length ks], and the entries of [ks] are still pending, unchanged.
    Control is then in front of what follows [END_SCOPE]. *)
Theorem scope_unwind_runs_the_scope_in_reverse
        (n : Z) (ks js : list nat) (BEGIN LINE : nat)
        (after : list (nat * macro)) (f0 : frame) :
  well_formed (scoped_text ks js BEGIN LINE after) ->
  Z.of_nat (length ks) + Z.of_nat (length js) <= n ->
  exists f,
    exec (function_body n (scoped_text ks js BEGIN LINE after))
         (11 * length js + 4 * length ks + 8) f0
    = Running (expand_all after) f
    /\ executed f = executed f0 ++ reverse js
    /\ next_label_address f = Z.of_nat (length ks)
    /\ pending f = entries ks.
Proof.
  intros Hwf Hroom.
  destruct (run_scoped n ks js BEGIN LINE after f0 Hwf Hroom)
    as (f & Hrun & Hbetween & _ & _).
  exists f. split; [exact Hrun|]. split; [|split].
  - apply (between_executed _ _ _ _ _ _ _ Hbetween).
  - rewrite <- (length_pending f) by apply (between_bounds _ _ _ _ _ _ _ Hbetween).
    by rewrite (between_pending _ _ _ _ _ _ _ Hbetween), length_entries.
  - apply (between_pending _ _ _ _ _ _ _ Hbetween).
Qed.

Lemma scope_unwind_runs_the_scope_in_reverse_witness :
  exists f,
    exec (function_body 3 (scoped_text [10; 11]%nat [13]%nat 12 14 []))
         27 entry_frame
    = Running [] f
    /\ executed f = [13]%nat
    /\ next_label_address f = 2
    /\ pending f = [Some (destructor 10); Some (destructor 11)].
Proof.
  apply (scope_unwind_runs_the_scope_in_reverse
           3 [10; 11]%nat [13]%nat 12 14 [] entry_frame).
  - split; by_computation.
  - cbn. lia.
Defined.

(** C3. After [END_SCOPE] has brought the cursor back to [length ks], with
    the marker still at that scope ([destructor_label_address_stack_end] is
    [length ks - 1]), an [END_SCOPE_AND_RETURN] runs exactly the blocks of
    [ks] that were left, last pushed first, and leaves the cursor at the base
    of the array: it replaces the marker by the one below the base. *)
Theorem full_unwind_after_scope_unwind
        (n : Z) (ks js : list nat) (BEGIN LINE LINE' : nat) (ret : Z)
        (f0 : frame) :
  NoDup (ks ++ js) ->
  LINE <> LINE' ->
  Z.of_nat (length ks) + Z.of_nat (length js) <= n ->
  exists f1 f,
    exec (function_body n
            (scoped_text ks js BEGIN LINE [(LINE', end_scope_and_return ret)]))
         (11 * length js + 4 * length ks + 8) f0
    = Running (expand_all [(LINE', end_scope_and_return ret)]) f1
    /\ next_label_address f1 = Z.of_nat (length ks)
    /\ destructor_label_address_stack_end f1 = Z.of_nat (length ks) - 1
    /\ exec (function_body n
               (scoped_text ks js BEGIN LINE [(LINE', end_scope_and_return ret)]))
            (11 * length js + 11 * length ks + 14) f0
       = Returned ret f
    /\ executed f = executed f1 ++ reverse ks
    /\ next_label_address f = 0.
Proof.
  intros Hnodup Hlines Hroom.
  assert (Hwf : well_formed
                  (scoped_text ks js BEGIN LINE [(LINE', end_scope_and_return ret)])).
  { unfold scoped_text. split.
    - rewrite push_lines_app, push_lines_pushes. cbn [push_lines].
      rewrite push_lines_app, push_lines_pushes. cbn [push_lines].
      by rewrite app_nil_r.
    - rewrite scope_lines_app, scope_lines_pushes. cbn [scope_lines app].
      rewrite scope_lines_app, scope_lines_pushes. cbn [scope_lines app].
      apply NoDup_cons. split; [|apply NoDup_singleton].
      by rewrite list_elem_of_singleton. }
  destruct (run_scoped n ks js BEGIN LINE _ f0 Hwf Hroom)
    as (f1 & Hrun & Hbetween & Hend & _).
  pose proof (run_END_SCOPE_AND_RETURN _ _ _ _ _ _ _ _ _ Hbetween) as Hrun'.
  exists f1, (unwound LINE' ks (with_stack_end (0 - 1) f1)).
  repeat apply conj.
  - exact Hrun.
  - rewrite <- (length_pending f1) by apply (between_bounds _ _ _ _ _ _ _ Hbetween).
    by rewrite (between_pending _ _ _ _ _ _ _ Hbetween), length_entries.
  - exact Hend.
  - replace (11 * length js + 11 * length ks + 14)%nat
      with ((11 * length js + 4 * length ks + 8) + (7 * length ks + 6))%nat by lia.
    unfold exec in *. erewrite run_then by exact Hrun.
    rewrite scoped_text_done. exact Hrun'.
  - reflexivity.
  - reflexivity.
Qed.

Lemma full_unwind_after_scope_unwind_witness :
  exists f1 f,
    exec (function_body 3
            (scoped_text [10; 11]%nat [13]%nat 12 14 [(15%nat, end_scope_and_return 0)]))
         27 entry_frame
    = Running (END_SCOPE_AND_RETURN 15 0) f1
    /\ next_label_address f1 = 2
    /\ destructor_label_address_stack_end f1 = 1
    /\ exec (function_body 3
               (scoped_text [10; 11]%nat [13]%nat 12 14 [(15%nat, end_scope_and_return 0)]))
            47 entry_frame
       = Returned 0 f
    /\ executed f = executed f1 ++ [11; 10]%nat
    /\ next_label_address f = 0.
Proof.
  apply (full_unwind_after_scope_unwind 3 [10; 11]%nat [13]%nat 12 14 15 0 entry_frame).
  - by_computation.
  - lia.
  - cbn. lia.
Defined.

(** C4. Control is in front of a [PUSH_DESTRUCTOR], the cursor within the
    array or at its end.  If the cursor is at the end (as many entries as
    declared cells), the second assertion fails after two statements and the
    frame is as it was: no cell has been written.  If the cursor is below the
    end, no assertion fails: after four statements the label of the block is
    in the cell the cursor pointed at, every other cell is as before, the
    cursor is one further, and control is behind the macro. *)
Theorem push_checks_capacity
        (n : Z) (done todo : list (nat * macro)) (LINE : nat) (f : frame) :
  well_formed (done ++ (LINE, push_destructor) :: todo) ->
  0 <= next_label_address f <= capacity f ->
  (next_label_address f = capacity f ->
   run (function_body n (done ++ (LINE, push_destructor) :: todo)) 2
       (expand_all ((LINE, push_destructor) :: todo)) f
   = Aborted f)
  /\
  (next_label_address f < capacity f ->
   run (function_body n (done ++ (LINE, push_destructor) :: todo)) 4
       (expand_all ((LINE, push_destructor) :: todo)) f
   = Running (expand_all todo)
       (Frame (<[Z.to_nat (next_label_address f) := Some (destructor LINE)]>
                 (destructor_label_addresses f))
              (return_label_address f)
              (next_label_address f + 1)
              (destructor_label_address_stack_end f)
              (executed f))).
Proof.
  intros Hwf Hbounds. split; intros Hnext.
  - apply exec_PUSH_full; lia.
  - apply exec_PUSH; [|lia].
    apply find_after_destructor. by eapply fresh_push_line.
Qed.

Lemma push_checks_capacity_witness :
  run (function_body 1 [(7%nat, push_destructor)]) 2
      (expand_all [(7%nat, push_destructor)])
      (Frame [Some (destructor 3)] None 1 (-1) [])
  = Aborted (Frame [Some (destructor 3)] None 1 (-1) [])
  /\
  run (function_body 1 [(7%nat, push_destructor)]) 4
      (expand_all [(7%nat, push_destructor)])
      (Frame [Some (destructor 3)] None 0 (-1) [])
  = Running [] (Frame [Some (destructor 7)] None 1 (-1) []).
Proof.
  split.
  - apply (push_checks_capacity 1 [] [] 7 (Frame [Some (destructor 3)] None 1 (-1) []));
      [split; by_computation|unfold capacity; cbn; lia|reflexivity].
  - apply (push_checks_capacity 1 [] [] 7 (Frame [Some (destructor 3)] None 0 (-1) []));
      [split; by_computation|unfold capacity; cbn; lia|unfold capacity; cbn; lia].
Defined.

(** C5, as the specification states it, fails: a second [END_SCOPE] on the
    marker a first one has already unwound to is not fatal.  Here the block
    of line 3 runs once, in the first [END_SCOPE]; the second one runs
    nothing and control leaves the macros normally. *)
Lemma second_end_scope_is_not_fatal :
  exec (function_body 2
          [(1, push_destructor); (2, begin_scope); (3, push_destructor);
           (4, end_scope); (5, end_scope)]%nat)
       28 entry_frame
  = Done (Frame [Some (destructor 1); Some (destructor 3)]
                (Some (return_ 5)) 1 0 [3%nat]).
Proof. reflexivity. Qed.

(** C5, amended.  [END_SCOPE] aborts, at its first assertion, when
    [destructor_label_address_stack_end] is not below [next_label_address]:
    the marker lies above the cursor.  When it is exactly one below, the
    marker being the cursor itself, which is what an [END_SCOPE] with that
    marker leaves, it runs no block, keeps the cursor and goes on to what
    follows. *)
Theorem end_scope_aborts_when_marker_reaches_cursor
        (fn : code) (LINE : nat) (rest : code) (f : frame) :
  (next_label_address f <= destructor_label_address_stack_end f ->
   run fn 3 (END_SCOPE LINE ++ rest) f
   = Aborted (with_return_label (Some (return_ LINE)) f))
  /\
  (destructor_label_address_stack_end f = next_label_address f - 1 ->
   run fn 4 (END_SCOPE LINE ++ rest) f
   = Running rest (with_return_label (Some (return_ LINE)) f)).
Proof.
  split; intros H.
  - by apply exec_END_SCOPE_marker_above.
  - by apply exec_END_SCOPE_marker_at_cursor.
Qed.

Lemma end_scope_aborts_when_marker_reaches_cursor_witness :
  run [] 3 (END_SCOPE 9 ++ []) (Frame [Some (destructor 3)] None 1 1 [])
  = Aborted (Frame [Some (destructor 3)] (Some (return_ 9)) 1 1 [])
  /\
  run [] 4 (END_SCOPE 9 ++ []) (Frame [Some (destructor 3)] None 1 0 [])
  = Running [] (Frame [Some (destructor 3)] (Some (return_ 9)) 1 0 []).
Proof.
  split.
  - apply (end_scope_aborts_when_marker_reaches_cursor
             [] 9 [] (Frame [Some (destructor 3)] None 1 1 [])).
    cbn. lia.
  - apply (end_scope_aborts_when_marker_reaches_cursor
             [] 9 [] (Frame [Some (destructor 3)] None 1 0 [])).
    reflexivity.
Defined.

(** C6. A function declares [n] cells and goes on with any macros.  Take the
    frame after any number of statements behind [MAKE_DESTRUCTOR_STACK]: if
    the next statement is not a failing assertion, the array still has its
    [n] cells and the cursor is inside it or at its end. *)
Theorem cursor_stays_within_capacity
        (n : Z) (text : list (nat * macro)) (f0 : frame) (fuel : nat) (f : frame) :
  frame_of (exec (function_body n text) (3 + fuel) f0) = Some f ->
  (forall f', exec (function_body n text) (4 + fuel) f0 <> Aborted f') ->
  capacity f = n /\ 0 <= next_label_address f <= capacity f.
Proof.
  unfold exec. intros Hf Hgoes.
  destruct (decide (0 <= n)) as [Hn|Hn].
  - replace (4 + fuel)%nat with (3 + S fuel)%nat in Hgoes by lia.
    unfold function_body at 2 in Hf. unfold function_body at 2 in Hgoes.
    rewrite (run_then _ 3 _ _ _ _ _ (exec_MAKE _ n _ f0 Hn)) in Hf.
    rewrite (run_then _ 3 _ _ _ _ _ (exec_MAKE _ n _ f0 Hn)) in Hgoes.
    rewrite run_last in Hgoes.
    pose proof (run_sound n text fuel _ _ (made_sound n text f0 Hn)) as Hsound.
    destruct (run (function_body n text) fuel (expand_all text) (made n f0))
      as [c1 f1|f1| |ret f1|f1|f1]; try discriminate;
      injection Hf as <-; try assumption.
    + destruct Hsound as [Hcap Htop [Hbase|(Hlow & c' & ->)] _ _ _].
      * split; [assumption|lia].
      * destruct (Hgoes f1). cbn [step eval_cond].
        by replace (0 <=? next_label_address f1) with false by lia.
    + by destruct (Hgoes f1).
  - replace (3 + fuel)%nat with (S (2 + fuel)) in Hf by lia.
    rewrite run_S in Hf. cbn [function_body MAKE_DESTRUCTOR_STACK app step] in Hf.
    replace (n <? 0) with true in Hf by lia. discriminate.
Qed.

Lemma cursor_stays_within_capacity_witness :
  capacity (Frame [Some (destructor 1); Some (destructor 3)]
                  (Some (return_ 4)) 1 0 [3%nat]) = 2
  /\ 0 <= next_label_address
            (Frame [Some (destructor 1); Some (destructor 3)]
                   (Some (return_ 4)) 1 0 [3%nat])
     <= capacity (Frame [Some (destructor 1); Some (destructor 3)]
                        (Some (return_ 4)) 1 0 [3%nat]).
Proof.
  apply (cursor_stays_within_capacity
           2
           [(1, push_destructor); (2, begin_scope); (3, push_destructor);
            (4, end_scope); (5, end_scope)]%nat
           entry_frame 20).
  - reflexivity.
  - intros f'. vm_compute. discriminate.
Defined.

(** C7. [END_SCOPE_AND_RETURN] with the cursor at the base of the array runs
    no block and does not abort: after six statements the function returns,
    the cells and the cursor as they were, nothing added to what has run. *)
Theorem full_unwind_of_empty_stack_runs_nothing
        (fn : code) (LINE : nat) (ret : Z) (rest : code) (f : frame) :
  next_label_address f = 0 ->
  run fn 6 (END_SCOPE_AND_RETURN LINE ret ++ rest) f
  = Returned ret
      (Frame (destructor_label_addresses f) (Some (return_ LINE)) 0 (0 - 1)
             (executed f)).
Proof.
  intros Hnext. unfold END_SCOPE_AND_RETURN.
  rewrite <- app_comm_cons, <- app_assoc.
  replace 6%nat with (1 + (4 + 1))%nat by reflexivity.
  erewrite run_then by reflexivity.
  erewrite run_then.
  2:{ apply exec_END_SCOPE_marker_at_cursor. fields. lia. }
  destruct f; fields; subst. reflexivity.
Qed.

Lemma full_unwind_of_empty_stack_runs_nothing_witness :
  run [] 6 (END_SCOPE_AND_RETURN 9 0 ++ [])
      (Frame [Some (destructor 3)] None 0 5 [3%nat])
  = Returned 0 (Frame [Some (destructor 3)] (Some (return_ 9)) 0 (-1) [3%nat]).
Proof.
  apply (full_unwind_of_empty_stack_runs_nothing
           [] 9 0 [] (Frame [Some (destructor 3)] None 0 5 [3%nat])).
  reflexivity.
Defined.

(** C8, as the specification states it, fails: [MAKE_DESTRUCTOR_STACK] makes
    no check.  With [-1] for [n] no assertion fails; the declaration of an
    array of [-1] cells has no defined behaviour. *)
Lemma make_does_not_check_its_argument :
  exec (function_body (-1) []) 4 entry_frame = Undefined.
Proof. reflexivity. Qed.

(** C8, amended.  [MAKE_DESTRUCTOR_STACK(n)] with [0 <= n] declares exactly
    [n] cells, sets [return_label_address] to [NULL] and the cursor to the
    base of the array, and runs no block.  Whatever [n] is, it does not
    abort: the macro holds no assertion. *)
Theorem make_declares_the_cells_and_checks_nothing
        (fn : code) (n : Z) (rest : code) (f : frame) :
  (0 <= n ->
   run fn 3 (MAKE_DESTRUCTOR_STACK n ++ rest) f
   = Running rest
       (Frame (replicate (Z.to_nat n) None) None 0
              (destructor_label_address_stack_end f) (executed f))
   /\ capacity (made n f) = n)
  /\
  (forall fuel f', run fn fuel (MAKE_DESTRUCTOR_STACK n) f <> Aborted f').
Proof.
  split.
  - intros Hn. split; [by apply exec_MAKE|].
    unfold made. fields. rewrite length_replicate. lia.
  - intros fuel f'. unfold MAKE_DESTRUCTOR_STACK.
    destruct fuel as [|fuel]; [discriminate|]. rewrite run_S. cbn [step].
    destruct (n <? 0); [discriminate|].
    do 3 (destruct fuel as [|fuel]; [discriminate|]; rewrite run_S; cbn [step]).
    discriminate.
Qed.

Lemma make_declares_the_cells_and_checks_nothing_witness :
  run [] 3 (MAKE_DESTRUCTOR_STACK 2 ++ []) entry_frame
  = Running [] (Frame [None; None] None 0 0 [])
  /\ capacity (made 2 entry_frame) = 2.
Proof.
  apply (make_declares_the_cells_and_checks_nothing [] 2 [] entry_frame).
  lia.
Defined.

(** C9. [PUSH_DESTRUCTOR] does not run the block it registers, and a block
    runs only when an unwind pops its entry.

    First, four statements from in front of a [PUSH_DESTRUCTOR] lead behind
    it with nothing added to what has run, or to an abort that leaves the
    frame as it was.

    Second, in every run of a function made with the macros, whenever
    control is in front of the cleanup block of a line, the statement just
    executed is the computed [goto] of [END_SCOPE__], and the cell the cursor
    has been moved down to holds the label of that block. *)
Theorem block_runs_only_when_popped :
  (forall (n : Z) (done todo : list (nat * macro)) (LINE : nat) (f : frame),
      well_formed (done ++ (LINE, push_destructor) :: todo) ->
      match run (function_body n (done ++ (LINE, push_destructor) :: todo)) 4
                (expand_all ((LINE, push_destructor) :: todo)) f with
      | Running c f' => c = expand_all todo /\ executed f' = executed f
      | Aborted f' => f' = f
      | _ => False
      end)
  /\
  (forall (n : Z) (text : list (nat * macro)) (f0 : frame) (fuel : nat)
          (lineno : nat) (c : code) (f : frame),
      exec (function_body n text) (S fuel) f0 = Running (Sblock lineno :: c) f ->
      exists c',
        exec (function_body n text) fuel f0 = Running (Sgoto_popped :: c') f
        /\ cell_at_next f = Some (Some (destructor lineno))).
Proof.
  split.
  - intros n done todo LINE f Hwf. cbn [expand_all expand].
    destruct (decide (0 <= next_label_address f)) as [Hbase|Hbase].
    + destruct (decide (next_label_address f < capacity f)) as [Hroom|Hfull].
      * rewrite (exec_PUSH _ LINE _ (expand_all todo)); [by split| |lia].
        apply find_after_destructor. by eapply fresh_push_line.
      * replace 4%nat with (2 + 2)%nat by reflexivity.
        by rewrite run_add, exec_PUSH_full by lia.
    + one_step. by rewrite bool_decide_eq_false_2.
  - intros n text f0 fuel lineno c f. unfold exec. rewrite run_last.
    destruct (decide (0 <= n)) as [Hn|Hn].
    + destruct (Nat.le_gt_cases 3 fuel) as [Hfuel|Hfuel].
      * assert (Hexec : run (function_body n text) fuel (function_body n text) f0
                        = run (function_body n text) (fuel - 3) (expand_all text)
                              (made n f0)).
        { replace fuel with (3 + (fuel - 3))%nat at 1 by lia.
          unfold function_body at 2.
          by rewrite (run_then _ 3 _ _ _ _ _ (exec_MAKE _ n _ f0 Hn)). }
        rewrite Hexec.
        pose proof (run_sound n text (fuel - 3) _ _ (made_sound n text f0 Hn))
          as Hsound.
        destruct (run (function_body n text) (fuel - 3) (expand_all text) (made n f0))
          as [c1 f1| | | | |]; try discriminate.
        intros Hstep.
        destruct (step_into_block _ _ _ _ _ _ _ Hsound Hstep) as (c' & -> & -> & Hcell).
        by exists c'.
      * unfold function_body at 2 4. unfold MAKE_DESTRUCTOR_STACK.
        destruct fuel as [|[|[|fuel]]]; [| | |lia];
          cbn [run step app]; replace (n <? 0) with false by lia;
          try discriminate.
        intros [= Htext _].
        pose proof (chained_expand_all text Sbreak ltac:(done)) as Hchained.
        rewrite Htext in Hchained. by destruct Hchained as (? & _).
    + unfold function_body at 2. unfold MAKE_DESTRUCTOR_STACK.
      destruct fuel as [|fuel]; cbn [run step app];
        replace (n <? 0) with true by lia; discriminate.
Qed.

Lemma block_runs_only_when_popped_witness :
  match run (function_body 1 [(7%nat, push_destructor)]) 4
            (expand_all [(7%nat, push_destructor)])
            (Frame [None] None 0 (-1) []) with
  | Running c f' => c = [] /\ executed f' = []
  | Aborted f' => f' = Frame [None] None 0 (-1) []
  | _ => False
  end
  /\
  exists f c',
    exec (function_body 2
            [(1, push_destructor); (2, begin_scope); (3, push_destructor);
             (4, end_scope)]%nat)
         18 entry_frame
    = Running (Sgoto_popped :: c') f
    /\ cell_at_next f = Some (Some (destructor 3)).
Proof.
  split.
  - apply (proj1 block_runs_only_when_popped
             1 [] [] 7%nat (Frame [None] None 0 (-1) [])).
    split; by_computation.
  - eexists.
    eapply (proj2 block_runs_only_when_popped
              2
              [(1, push_destructor); (2, begin_scope); (3, push_destructor);
               (4, end_scope)]%nat
              entry_frame 18%nat 3%nat).
    reflexivity.
Defined.

(** C10. Cells an unwind has vacated are used again, and no block that an
    unwind has run is run again.

    First, for every well-formed function, every frame [f0] on entry and
    every number of statements: the blocks run since entry are pairwise
    distinct, so none has run twice, whatever pushes, scopes and unwinds came
    in between.

    Second, for a function that pushes [ks], opens a scope, pushes [j :: js],
    ends the scope and pushes again at line [PUSH]: when [END_SCOPE] is done
    the cell at the cursor still holds the popped entry of [j]; the push
    writes its own label over it. *)
Theorem vacated_cells_are_reused_and_no_block_runs_twice :
  (forall (n : Z) (text : list (nat * macro)) (f0 : frame) (fuel : nat) (f : frame),
      well_formed text ->
      frame_of (exec (function_body n text) fuel f0) = Some f ->
      exists ran, executed f = executed f0 ++ ran /\ NoDup ran)
  /\
  (forall (n : Z) (ks js : list nat) (j BEGIN LINE PUSH : nat)
          (after : list (nat * macro)) (f0 : frame),
      let text :=
        scoped_text ks (j :: js) BEGIN LINE ((PUSH, push_destructor) :: after) in
      let K := length ks in
      let fuel := (11 * length (j :: js) + 4 * K + 8)%nat in
      well_formed text ->
      Z.of_nat K + Z.of_nat (length (j :: js)) <= n ->
      exists f1 f2,
        exec (function_body n text) fuel f0
        = Running (expand_all ((PUSH, push_destructor) :: after)) f1
        /\ next_label_address f1 = Z.of_nat K
        /\ destructor_label_addresses f1 !! K = Some (Some (destructor j))
        /\ exec (function_body n text) (fuel + 4) f0
           = Running (expand_all after) f2
        /\ next_label_address f2 = Z.of_nat K + 1
        /\ destructor_label_addresses f2 !! K = Some (Some (destructor PUSH))
        /\ pending f2 = entries (ks ++ [PUSH])).
Proof.
  split; [exact no_block_runs_twice|].
  intros n ks js j BEGIN LINE PUSH after f0 text K fuel Hwf Hroom.
  destruct (run_scoped n ks (j :: js) BEGIN LINE _ f0 Hwf Hroom)
    as (f1 & Hrun & Hbetween & _ & Hcells).
  pose proof (between_bounds _ _ _ _ _ _ _ Hbetween) as Hbounds.
  pose proof (between_capacity _ _ _ _ _ _ _ Hbetween) as Hcap.
  assert (Hnext : next_label_address f1 = Z.of_nat K).
  { rewrite <- (length_pending f1) by assumption.
    by rewrite (between_pending _ _ _ _ _ _ _ Hbetween), length_entries. }
  cbn [length] in Hroom.
  assert (Hpush := between_PUSH _ _ _ _ _ _ _ _ Hbetween ltac:(lia)).
  exists f1, (pushed PUSH f1). repeat apply conj.
  - exact Hrun.
  - exact Hnext.
  - rewrite <- (lookup_take_lt _ (length ks + length (j :: js))) by (cbn [length]; lia).
    rewrite Hcells. unfold entries. rewrite list_lookup_fmap.
    by rewrite list_lookup_middle.
  - unfold exec in *. erewrite run_then by exact Hrun.
    subst text. rewrite scoped_text_done.
    apply exec_PUSH; [|lia].
    apply find_after_destructor.
    eapply fresh_push_line, between_well_formed, Hbetween.
  - unfold pushed. fields. lia.
  - unfold pushed. fields. rewrite Hnext, Nat2Z.id.
    apply list_lookup_insert_eq. lia.
  - apply (between_pending _ _ _ _ _ _ _ Hpush).
Qed.

Lemma vacated_cells_are_reused_and_no_block_runs_twice_witness :
  (exists ran,
      executed (Frame [Some (destructor 1); Some (destructor 7)]
                      (Some (return_ 8)) 0 (-1) [3; 7; 1]%nat)
      = [] ++ ran /\ NoDup ran)
  /\
  (exists f1 f2,
      exec (function_body 2
              (scoped_text [1]%nat [3]%nat 2 4 [(7%nat, push_destructor)]))
           23 entry_frame
      = Running (expand_all [(7%nat, push_destructor)]) f1
      /\ next_label_address f1 = 1
      /\ destructor_label_addresses f1 !! 1%nat = Some (Some (destructor 3))
      /\ exec (function_body 2
                 (scoped_text [1]%nat [3]%nat 2 4 [(7%nat, push_destructor)]))
              27 entry_frame
         = Running [] f2
      /\ next_label_address f2 = 2
      /\ destructor_label_addresses f2 !! 1%nat = Some (Some (destructor 7))
      /\ pending f2 = [Some (destructor 1); Some (destructor 7)]).
Proof.
  split.
  - apply (proj1 vacated_cells_are_reused_and_no_block_runs_twice
             2
             [(1, push_destructor); (2, begin_scope); (3, push_destructor);
              (4, end_scope); (7, push_destructor);
              (8, end_scope_and_return 0)]%nat
             entry_frame 100%nat).
    + split; by_computation.
    + reflexivity.
  - apply (proj2 vacated_cells_are_reused_and_no_block_runs_twice
             2 [1]%nat [] 3%nat 2%nat 4%nat 7%nat [] entry_frame).
    + split; by_computation.
    + cbn. lia.
Defined.

(** * Further properties of the macros *)

(** ** The machine does what the macros do one after the other *)

Lemma omap_line_of_entries (lines : list nat) :
  omap line_of (entries lines) = lines.
Proof.
  induction lines as [|l lines IH]; [reflexivity|].
  change (entries (l :: lines)) with (Some (destructor l) :: entries lines).
  cbn [omap list_omap line_of]. by rewrite IH.
Qed.

Lemma popped_entries (b : nat) (pend : list nat) (f : frame) :
  pending f = entries pend -> popped b f = drop b pend.
Proof.
  intros H. unfold popped. rewrite H. unfold entries.
  rewrite <- fmap_drop. apply omap_line_of_entries.
Qed.

(** [END_SCOPE] between two macros: the statements of its loop lead to what
    [unwind_to_marker] says. *)
Lemma run_unwind_to_marker n start done todo ran pend f LINE m :
  unwinds m ->
  between n start done ((LINE, m) :: todo) ran pend f ->
  exists fuel,
    run (function_body n (done ++ (LINE, m) :: todo)) fuel
        (END_SCOPE LINE ++ after_loop m ++ expand_all todo) f
    = match unwind_to_marker LINE f with
      | Unwound f' => Running (after_loop m ++ expand_all todo) f'
      | Unwinding_aborted f' => Aborted f'
      end.
Proof.
  intros Hm Hbetween.
  pose proof (find_return n done todo LINE m Hm
                (fresh_scope_line _ _ _ _ Hm (between_well_formed _ _ _ _ _ _ _ Hbetween)))
    as Hreturn.
  pose proof (between_bounds _ _ _ _ _ _ _ Hbetween) as Hbounds.
  pose proof (between_pending _ _ _ _ _ _ _ Hbetween) as Hpend.
  assert (Hlen : Z.of_nat (length pend) = next_label_address f).
  { by rewrite <- (length_pending f), Hpend, length_entries. }
  unfold unwind_to_marker.
  destruct (decide (next_label_address f <= destructor_label_address_stack_end f)).
  - exists 3%nat. by apply exec_END_SCOPE_marker_above.
  - destruct (decide (destructor_label_address_stack_end f < -1)).
    + exists (7 * length pend + 6)%nat.
      rewrite (popped_entries 0 pend) by assumption. cbn [drop].
      eapply exec_END_SCOPE_marker_below; try eassumption.
      intros lineno Hin. by eapply between_linked.
    + set (b := Z.to_nat (destructor_label_address_stack_end f + 1)).
      exists (7 * length (drop b pend) + 4)%nat.
      rewrite (popped_entries b pend) by assumption.
      apply (exec_END_SCOPE _ _ _ Hreturn (take b pend)).
      * intros lineno Hin. eapply between_linked; [eassumption|].
        by eapply subseteq_drop.
      * assumption.
      * by rewrite take_drop.
      * rewrite length_take_le by lia. lia.
Qed.

(** And it leaves control between the macros again. *)
Lemma unwind_to_marker_between n start done todo ran pend f LINE m :
  unwinds m ->
  between n start done ((LINE, m) :: todo) ran pend f ->
  match unwind_to_marker LINE f with
  | Unwound f' =>
      exists below lines,
        pend = below ++ lines
        /\ Z.of_nat (length below) = destructor_label_address_stack_end f + 1
        /\ f' = unwound LINE lines f
        /\ between n start (done ++ [(LINE, m)]) todo (ran ++ reverse lines) below f'
  | Unwinding_aborted _ => True
  end.
Proof.
  intros Hm Hbetween.
  pose proof (between_bounds _ _ _ _ _ _ _ Hbetween) as Hbounds.
  pose proof (between_pending _ _ _ _ _ _ _ Hbetween) as Hpend.
  assert (Hlen : Z.of_nat (length pend) = next_label_address f).
  { by rewrite <- (length_pending f), Hpend, length_entries. }
  unfold unwind_to_marker.
  destruct (decide (next_label_address f <= destructor_label_address_stack_end f));
    [exact I|].
  destruct (decide (destructor_label_address_stack_end f < -1)); [exact I|].
  set (b := Z.to_nat (destructor_label_address_stack_end f + 1)).
  rewrite (popped_entries b pend) by assumption.
  assert (Hb : Z.of_nat (length (take b pend))
               = destructor_label_address_stack_end f + 1).
  { rewrite length_take_le by lia. lia. }
  exists (take b pend), (drop b pend).
  split; [by rewrite take_drop|]. split; [exact Hb|]. split; [reflexivity|].
  apply between_END_SCOPE; [exact Hm| |lia].
  by rewrite take_drop.
Qed.

(** [effects] never leaves a run unfinished or undefined. *)
Lemma effects_final (text : list (nat * macro)) (f : frame) :
  match effects text f with
  | Running _ _ | Undefined => False
  | _ => True
  end.
Proof.
  revert f. induction text as [|[LINE m] text IH]; intros f; [exact I|].
  destruct m; cbn [effects];
    repeat match goal with
           | |- context [decide ?P] => destruct (decide P)
           | |- context [unwind_to_marker ?l ?f] => destruct (unwind_to_marker l f)
           end; try apply IH; exact I.
Qed.

(** From between any two macros, the statements that remain lead to what the
    macros that remain do. *)
Lemma run_effects (n : Z) (start : list nat) (todo : list (nat * macro)) :
  forall done ran pend f,
    between n start done todo ran pend f ->
    exists fuel,
      run (function_body n (done ++ todo)) fuel (expand_all todo) f
      = effects todo f.
Proof.
  induction todo as [|[LINE m] todo IH]; intros done ran pend f Hbetween.
  { by exists 1%nat. }
  assert (Hnext : forall f' ran' pend' a,
             run (function_body n (done ++ (LINE, m) :: todo)) a
                 (expand_all ((LINE, m) :: todo)) f
             = Running (expand_all todo) f' ->
             between n start (done ++ [(LINE, m)]) todo ran' pend' f' ->
             exists fuel,
               run (function_body n (done ++ (LINE, m) :: todo)) fuel
                   (expand_all ((LINE, m) :: todo)) f
               = effects todo f').
  { intros f' ran' pend' a Hrun Hbetween'.
    destruct (IH _ _ _ _ Hbetween') as [fuel Hfuel].
    rewrite <- app_assoc in Hfuel. cbn [app] in Hfuel.
    exists (a + fuel)%nat. by erewrite run_then. }
  pose proof (between_bounds _ _ _ _ _ _ _ Hbetween) as Hbounds.
  destruct m; cbn [effects].
  - (* PUSH_DESTRUCTOR *)
    destruct (decide (0 <= next_label_address f < capacity f)) as [Hroom|Hfull].
    + eapply (Hnext _ _ _ 4%nat); [|apply between_PUSH; [exact Hbetween|lia]].
      apply exec_PUSH; [|exact Hroom].
      apply find_after_destructor.
      eapply fresh_push_line, between_well_formed, Hbetween.
    + exists 2%nat. apply exec_PUSH_full; lia.
  - (* BEGIN_SCOPE *)
    eapply (Hnext _ _ _ 1%nat); [reflexivity|by apply between_BEGIN].
  - (* END_SCOPE *)
    destruct (run_unwind_to_marker _ _ _ _ _ _ _ _ end_scope I Hbetween)
      as [fuel Hfuel].
    pose proof (unwind_to_marker_between _ _ _ _ _ _ _ _ end_scope I Hbetween)
      as Hafter.
    destruct (unwind_to_marker LINE f) as [f'|f'].
    + destruct Hafter as (below & lines & _ & _ & _ & Hbetween').
      by eapply (Hnext _ _ _ fuel).
    + by exists fuel.
  - (* END_SCOPE_AND_BREAK *)
    destruct (run_unwind_to_marker _ _ _ _ _ _ _ _ end_scope_and_break I Hbetween)
      as [fuel Hfuel].
    cbn [expand_all expand]. unfold END_SCOPE_AND_BREAK. rewrite <- app_assoc.
    destruct (unwind_to_marker LINE f) as [f'|f'].
    + exists (fuel + 1)%nat. by erewrite run_then by exact Hfuel.
    + by exists fuel.
  - (* END_SCOPE_AND_RETURN *)
    pose proof (between_with_stack_end _ _ _ _ _ _ _ (0 - 1) Hbetween) as Hbetween'.
    destruct (run_unwind_to_marker _ _ _ _ _ _ _ _ (end_scope_and_return ret) I
                Hbetween') as [fuel Hfuel].
    cbn [expand_all expand]. unfold END_SCOPE_AND_RETURN.
    rewrite <- app_comm_cons, <- app_assoc.
    destruct (unwind_to_marker LINE (with_stack_end (0 - 1) f)) as [f'|f'].
    + exists (1 + (fuel + 1))%nat.
      erewrite run_then by reflexivity. by erewrite run_then by exact Hfuel.
    + exists (1 + fuel)%nat. by erewrite run_then by reflexivity.
Qed.

Lemma exec_effects (n : Z) (text : list (nat * macro)) (f0 : frame) :
  0 <= n ->
  well_formed text ->
  exists fuel,
    exec (function_body n text) fuel f0 = effects text (made n f0).
Proof.
  intros Hn Hwf.
  destruct (run_effects n (executed f0) text [] [] [] (made n f0)
              (between_made n text f0 Hn Hwf)) as [fuel Hfuel].
  exists (3 + fuel)%nat. unfold exec. unfold function_body at 2.
  erewrite run_then by by apply exec_MAKE. exact Hfuel.
Qed.

(** A run that has ended has ended as the effects of the macros say. *)
Lemma final_exec_is_effects (n : Z) (text : list (nat * macro)) (f0 : frame)
      (fuel : nat) :
  0 <= n ->
  well_formed text ->
  final (exec (function_body n text) fuel f0) ->
  exec (function_body n text) fuel f0 = effects text (made n f0).
Proof.
  intros Hn Hwf Hfinal.
  destruct (exec_effects n text f0 Hn Hwf) as [fuel' Hfuel'].
  assert (Hfinal' : final (exec (function_body n text) fuel' f0)).
  { rewrite Hfuel'. pose proof (effects_final text (made n f0)) as H.
    by destruct (effects text (made n f0)). }
  rewrite <- Hfuel'. unfold exec in *.
  destruct (Nat.le_ge_cases fuel fuel').
  - symmetry. by apply run_final_stable.
  - by apply run_final_stable.
Qed.

(** With fewer than zero cells declared, the first statement already has no
    defined behaviour. *)
Lemma exec_negative (n : Z) (text : list (nat * macro)) (f0 : frame)
      (fuel : nat) :
  n < 0 -> exec (function_body n text) (S fuel) f0 = Undefined.
Proof.
  intros Hn. unfold exec. rewrite run_S.
  cbn [function_body MAKE_DESTRUCTOR_STACK app step].
  by replace (n <? 0) with true by lia.
Qed.

(** X1. A function that declares [n >= 0] cells and uses the macros, each
    label defined once, runs to the end that the effects of its macros, taken
    one after the other from the frame [MAKE_DESTRUCTOR_STACK] leaves, give:
    the jumps through label addresses implement pushing and popping a
    stack. *)
Theorem run_is_the_effects_of_the_macros
        (n : Z) (text : list (nat * macro)) (f0 : frame) :
  0 <= n ->
  well_formed text ->
  exists fuel,
    exec (function_body n text) fuel f0 = effects text (made n f0).
Proof. apply exec_effects. Qed.

Lemma run_is_the_effects_of_the_macros_witness :
  exists fuel,
    exec (function_body 2
            [(1, begin_scope); (2, push_destructor); (3, push_destructor);
             (4, push_destructor)]%nat) fuel entry_frame
    = Aborted (Frame [Some (destructor 2); Some (destructor 3)] None 2 (-1) []).
Proof.
  apply (run_is_the_effects_of_the_macros
           2
           [(1, begin_scope); (2, push_destructor); (3, push_destructor);
            (4, push_destructor)]%nat entry_frame).
  - lia.
  - split; by_computation.
Defined.



(** ** Every pushed block is accounted for *)

(** What the macros that remain lead to, in terms of the macros of the
    function: running off the end, all macros are done; a [break] or a
    [return] is that of an [END_SCOPE_AND_BREAK] or [END_SCOPE_AND_RETURN] of
    the function, and the macros in front of it are done. *)
Lemma effects_accounted (n : Z) (start : list nat) (todo : list (nat * macro)) :
  forall done ran pend f,
    between n start done todo ran pend f ->
    match effects todo f with
    | Done f' =>
        exists ran' pend', between n start (done ++ todo) [] ran' pend' f'
    | Broke f' =>
        exists d LINE t ran' pend',
          done ++ todo = d ++ (LINE, end_scope_and_break) :: t
          /\ between n start (d ++ [(LINE, end_scope_and_break)]) t ran' pend' f'
    | Returned ret f' =>
        exists d LINE t ran',
          done ++ todo = d ++ (LINE, end_scope_and_return ret) :: t
          /\ between n start (d ++ [(LINE, end_scope_and_return ret)]) t ran' [] f'
    | _ => True
    end.
Proof.
  induction todo as [|[LINE m] todo IH]; intros done ran pend f Hbetween.
  { cbn [effects]. rewrite app_nil_r. by exists ran, pend. }
  assert (Hnext : forall f' ran' pend',
             between n start (done ++ [(LINE, m)]) todo ran' pend' f' ->
             match effects todo f' with
             | Done f'' =>
                 exists ran'' pend'',
                   between n start (done ++ (LINE, m) :: todo) [] ran'' pend'' f''
             | Broke f'' =>
                 exists d L t ran'' pend'',
                   done ++ (LINE, m) :: todo = d ++ (L, end_scope_and_break) :: t
                   /\ between n start (d ++ [(L, end_scope_and_break)]) t
                              ran'' pend'' f''
             | Returned ret f'' =>
                 exists d L t ran'',
                   done ++ (LINE, m) :: todo = d ++ (L, end_scope_and_return ret) :: t
                   /\ between n start (d ++ [(L, end_scope_and_return ret)]) t
                              ran'' [] f''
             | _ => True
             end).
  { intros f' ran' pend' Hbetween'. specialize (IH _ _ _ _ Hbetween').
    rewrite <- app_assoc in IH. exact IH. }
  destruct m; cbn [effects].
  - destruct (decide (0 <= next_label_address f < capacity f)); [|exact I].
    eapply Hnext, between_PUSH; [exact Hbetween|lia].
  - eapply Hnext, between_BEGIN, Hbetween.
  - pose proof (unwind_to_marker_between _ _ _ _ _ _ _ _ end_scope I Hbetween)
      as Hafter.
    destruct (unwind_to_marker LINE f) as [f'|f']; [|exact I].
    destruct Hafter as (below & lines & _ & _ & _ & Hbetween').
    by eapply Hnext.
  - pose proof (unwind_to_marker_between _ _ _ _ _ _ _ _ end_scope_and_break I
                  Hbetween) as Hafter.
    destruct (unwind_to_marker LINE f) as [f'|f']; [|exact I].
    destruct Hafter as (below & lines & _ & _ & _ & Hbetween').
    by exists done, LINE, todo, (ran ++ reverse lines), below.
  - pose proof (unwind_to_marker_between _ _ _ _ _ _ _ _ (end_scope_and_return ret) I
                  (between_with_stack_end _ _ _ _ _ _ _ (0 - 1) Hbetween))
      as Hafter.
    destruct (unwind_to_marker LINE (with_stack_end (0 - 1) f)) as [f'|f'];
      [|exact I].
    destruct Hafter as (below & lines & _ & Hlen & _ & Hbetween').
    assert (below = []) as -> by (apply length_zero_iff_nil; cbn in Hlen; lia).
    by exists done, LINE, todo, (ran ++ reverse lines).
Qed.

Lemma exec_accounted (n : Z) (text : list (nat * macro)) (f0 : frame) (fuel : nat) :
  well_formed text ->
  ends_normally (exec (function_body n text) fuel f0) ->
  0 <= n /\ exec (function_body n text) fuel f0 = effects text (made n f0).
Proof.
  intros Hwf Hends.
  assert (Hn : 0 <= n).
  { destruct (decide (0 <= n)) as [|Hn]; [assumption|].
    destruct fuel as [|fuel]; [by cbn in Hends|].
    by rewrite exec_negative in Hends by lia. }
  split; [exact Hn|]. apply final_exec_is_effects; try assumption.
  by destruct (exec (function_body n text) fuel f0).
Qed.

(** X3. When a function made with the macros returns, it does so from one of
    its [END_SCOPE_AND_RETURN]; the blocks that have run since entry are
    those of the [PUSH_DESTRUCTOR] in front of it, each exactly once, and the
    cursor is at the base of the array: no entry is left pending. *)
Theorem return_has_run_every_pushed_block_once
        (n : Z) (text : list (nat * macro)) (f0 : frame) (fuel : nat)
        (ret : Z) (f : frame) :
  well_formed text ->
  exec (function_body n text) fuel f0 = Returned ret f ->
  exists done LINE todo ran,
    text = done ++ (LINE, end_scope_and_return ret) :: todo
    /\ executed f = executed f0 ++ ran
    /\ ran ≡ₚ push_lines done
    /\ next_label_address f = 0.
Proof.
  intros Hwf Hrun.
  destruct (exec_accounted n text f0 fuel Hwf) as [Hn Heffects];
    [by rewrite Hrun|].
  pose proof (effects_accounted n (executed f0) text [] [] [] (made n f0)
                (between_made n text f0 Hn Hwf)) as Haccount.
  rewrite <- Heffects, Hrun in Haccount.
  destruct Haccount as (done & LINE & todo & ran & Htext & Hbetween).
  exists done, LINE, todo, ran. repeat apply conj.
  - exact Htext.
  - apply (between_executed _ _ _ _ _ _ _ Hbetween).
  - pose proof (between_pushed _ _ _ _ _ _ _ Hbetween) as Hperm.
    rewrite push_lines_app in Hperm. cbn [push_lines] in Hperm.
    by rewrite !app_nil_r in Hperm.
  - rewrite <- (length_pending f) by apply (between_bounds _ _ _ _ _ _ _ Hbetween).
    by rewrite (between_pending _ _ _ _ _ _ _ Hbetween).
Qed.

Lemma return_has_run_every_pushed_block_once_witness :
  exists done LINE todo ran,
    [(1, push_destructor); (2, begin_scope); (3, push_destructor);
     (4, end_scope); (5, push_destructor); (6, end_scope_and_return 7);
     (8, push_destructor)]%nat
    = done ++ (LINE, end_scope_and_return 7) :: todo
    /\ [3; 5; 1]%nat = [] ++ ran
    /\ ran ≡ₚ push_lines done
    /\ 0 = 0.
Proof.
  apply (return_has_run_every_pushed_block_once
           2
           [(1, push_destructor); (2, begin_scope); (3, push_destructor);
            (4, end_scope); (5, push_destructor); (6, end_scope_and_return 7);
            (8, push_destructor)]%nat
           entry_frame 60 7
           (Frame [Some (destructor 1); Some (destructor 5)]
                  (Some (return_ 6)) 0 (-1) [3; 5; 1]%nat)).
  - split; by_computation.
  - reflexivity.
Defined.

(** X4. When control runs off the end of the macros, or leaves through the
    [break] of an [END_SCOPE_AND_BREAK], every block pushed on the way has
    either run exactly once or its entry is still pending below the cursor:
    none is lost and none is counted twice. *)
Theorem pushed_blocks_have_run_or_are_pending
        (n : Z) (text : list (nat * macro)) (f0 : frame) (fuel : nat) (f : frame) :
  well_formed text ->
  (exec (function_body n text) fuel f0 = Done f ->
   exists ran pend,
     executed f = executed f0 ++ ran
     /\ pending f = entries pend
     /\ ran ++ pend ≡ₚ push_lines text)
  /\
  (exec (function_body n text) fuel f0 = Broke f ->
   exists done LINE todo ran pend,
     text = done ++ (LINE, end_scope_and_break) :: todo
     /\ executed f = executed f0 ++ ran
     /\ pending f = entries pend
     /\ ran ++ pend ≡ₚ push_lines done).
Proof.
  intros Hwf. split; intros Hrun;
    (destruct (exec_accounted n text f0 fuel Hwf) as [Hn Heffects];
     [by rewrite Hrun|]);
    pose proof (effects_accounted n (executed f0) text [] [] [] (made n f0)
                  (between_made n text f0 Hn Hwf)) as Haccount;
    rewrite <- Heffects, Hrun in Haccount.
  - destruct Haccount as (ran & pend & Hbetween).
    exists ran, pend. repeat apply conj.
    + apply (between_executed _ _ _ _ _ _ _ Hbetween).
    + apply (between_pending _ _ _ _ _ _ _ Hbetween).
    + apply (between_pushed _ _ _ _ _ _ _ Hbetween).
  - destruct Haccount as (done & LINE & todo & ran & pend & Htext & Hbetween).
    exists done, LINE, todo, ran, pend. repeat apply conj.
    + exact Htext.
    + apply (between_executed _ _ _ _ _ _ _ Hbetween).
    + apply (between_pending _ _ _ _ _ _ _ Hbetween).
    + pose proof (between_pushed _ _ _ _ _ _ _ Hbetween) as Hperm.
      rewrite push_lines_app in Hperm. cbn [push_lines] in Hperm.
      by rewrite app_nil_r in Hperm.
Qed.

Lemma pushed_blocks_have_run_or_are_pending_witness :
  (exists ran pend,
      [3%nat] = [] ++ ran
      /\ pending (Frame [Some (destructor 1); Some (destructor 3)]
                        (Some (return_ 4)) 1 0 [3%nat])
         = entries pend
      /\ ran ++ pend
         ≡ₚ push_lines [(1, push_destructor); (2, begin_scope);
                        (3, push_destructor); (4, end_scope)]%nat)
  /\
  (exists done LINE todo ran pend,
      [(1, push_destructor); (2, begin_scope); (3, push_destructor);
       (4, end_scope_and_break); (5, push_destructor)]%nat
      = done ++ (LINE, end_scope_and_break) :: todo
      /\ [3%nat] = [] ++ ran
      /\ pending (Frame [Some (destructor 1); Some (destructor 3)]
                        (Some (return_ 4)) 1 0 [3%nat])
         = entries pend
      /\ ran ++ pend ≡ₚ push_lines done).
Proof.
  split.
  - apply (proj1 (pushed_blocks_have_run_or_are_pending
                    2
                    [(1, push_destructor); (2, begin_scope);
                     (3, push_destructor); (4, end_scope)]%nat
                    entry_frame 40
                    (Frame [Some (destructor 1); Some (destructor 3)]
                           (Some (return_ 4)) 1 0 [3%nat])
                    ltac:(split; by_computation))).
    reflexivity.
  - apply (proj2 (pushed_blocks_have_run_or_are_pending
                    2
                    [(1, push_destructor); (2, begin_scope);
                     (3, push_destructor); (4, end_scope_and_break);
                     (5, push_destructor)]%nat
                    entry_frame 40
                    (Frame [Some (destructor 1); Some (destructor 3)]
                           (Some (return_ 4)) 1 0 [3%nat])
                    ltac:(split; by_computation))).
    reflexivity.
Defined.

(** ** With enough cells and the marker set, no assertion fails *)

Lemma effects_end_normally (n : Z) (start : list nat) (todo : list (nat * macro)) :
  forall done ran pend f,
    between n start done todo ran pend f ->
    marker_set f ->
    Z.of_nat (length (push_lines (done ++ todo))) <= n ->
    ends_normally (effects todo f).
Proof.
  induction todo as [|[LINE m] todo IH]; intros done ran pend f Hbetween Hmarker Hroom;
    [exact I|].
  pose proof (between_bounds _ _ _ _ _ _ _ Hbetween) as Hbounds.
  pose proof (between_capacity _ _ _ _ _ _ _ Hbetween) as Hcap.
  assert (Hnext : forall f' ran' pend',
             between n start (done ++ [(LINE, m)]) todo ran' pend' f' ->
             marker_set f' ->
             ends_normally (effects todo f')).
  { intros f' ran' pend' Hbetween' Hmarker'.
    eapply IH; [exact Hbetween'|exact Hmarker'|]. by rewrite <- app_assoc. }
  assert (Hunwind : unwinds m -> forall p,
             -1 <= p < next_label_address f ->
             exists below lines,
               unwind_to_marker LINE (with_stack_end p f)
               = Unwound (unwound LINE lines (with_stack_end p f))
               /\ between n start (done ++ [(LINE, m)]) todo
                          (ran ++ reverse lines) below
                          (unwound LINE lines (with_stack_end p f))).
  { intros Hm p Hp.
    pose proof (unwind_to_marker_between _ _ _ _ _ _ _ _ m Hm
                  (between_with_stack_end _ _ _ _ _ _ _ p Hbetween)) as Hafter.
    unfold unwind_to_marker in *. fields.
    rewrite decide_False in * by lia. rewrite decide_False in * by lia.
    destruct Hafter as (below & lines & _ & _ & Heq & Hbetween').
    exists below, lines. by rewrite <- Heq. }
  unfold marker_set in Hmarker.
  destruct m; cbn [effects].
  - assert (next_label_address f < capacity f).
    { pose proof (between_pushed _ _ _ _ _ _ _ Hbetween) as Hperm.
      apply Permutation_length in Hperm.
      rewrite push_lines_app in Hroom. cbn [push_lines] in Hroom.
      rewrite !length_app in *. cbn [length] in Hroom.
      rewrite <- (length_pending f), (between_pending _ _ _ _ _ _ _ Hbetween),
        length_entries by assumption.
      lia. }
    rewrite decide_True by lia.
    eapply Hnext; [apply between_PUSH; [exact Hbetween|assumption]|].
    unfold marker_set, pushed. fields. lia.
  - eapply Hnext; [by apply between_BEGIN|]. unfold marker_set. fields. lia.
  - destruct (Hunwind I (destructor_label_address_stack_end f) Hmarker)
      as (below & lines & Heq & Hbetween').
    replace (with_stack_end (destructor_label_address_stack_end f) f) with f
      in * by (by destruct f).
    rewrite Heq. eapply Hnext; [exact Hbetween'|].
    unfold marker_set, unwound. fields. lia.
  - destruct (Hunwind I (destructor_label_address_stack_end f) Hmarker)
      as (below & lines & Heq & Hbetween').
    replace (with_stack_end (destructor_label_address_stack_end f) f) with f
      in * by (by destruct f).
    by rewrite Heq.
  - destruct (Hunwind I (0 - 1) ltac:(lia)) as (below & lines & Heq & Hbetween').
    by rewrite Heq.
Qed.

(** X5. A function that sets the marker first, with [BEGIN_SCOPE], and
    declares at least as many cells as it has [PUSH_DESTRUCTOR], never
    aborts: no assertion of any macro fails, and the run ends by running off
    the end, by [break] or by [return]. *)
Theorem enough_cells_and_a_marker_never_abort
        (n : Z) (BEGIN : nat) (text : list (nat * macro)) (f0 : frame) :
  well_formed text ->
  Z.of_nat (length (push_lines text)) <= n ->
  (forall fuel f,
      exec (function_body n ((BEGIN, begin_scope) :: text)) fuel f0 <> Aborted f)
  /\ (exists fuel,
         ends_normally
           (exec (function_body n ((BEGIN, begin_scope) :: text)) fuel f0)).
Proof.
  intros Hwf Hroom.
  assert (Hn : 0 <= n) by lia.
  assert (Hwf' : well_formed ((BEGIN, begin_scope) :: text)) by exact Hwf.
  assert (Hends : ends_normally
                    (effects ((BEGIN, begin_scope) :: text) (made n f0))).
  { cbn [effects].
    eapply (effects_end_normally n (executed f0) text [(BEGIN, begin_scope)]).
    - apply (between_BEGIN _ _ [] text), between_made; assumption.
    - unfold marker_set, made. fields. lia.
    - exact Hroom. }
  split.
  - intros fuel f Hfuel.
    rewrite (final_exec_is_effects n _ f0 fuel Hn Hwf') in Hfuel
      by (by rewrite Hfuel).
    by rewrite Hfuel in Hends.
  - destruct (exec_effects n _ f0 Hn Hwf') as [fuel Hfuel].
    exists fuel. by rewrite Hfuel.
Qed.

Lemma enough_cells_and_a_marker_never_abort_witness :
  (forall fuel f,
      exec (function_body 1
              [(1, begin_scope); (2, push_destructor); (3, end_scope);
               (4, end_scope); (5, end_scope_and_return 0)]%nat) fuel entry_frame
      <> Aborted f)
  /\ (exists fuel,
         ends_normally
           (exec (function_body 1
                    [(1, begin_scope); (2, push_destructor); (3, end_scope);
                     (4, end_scope); (5, end_scope_and_return 0)]%nat)
                 fuel entry_frame)).
Proof.
  apply (enough_cells_and_a_marker_never_abort
           1 1
           [(2, push_destructor); (3, end_scope); (4, end_scope);
            (5, end_scope_and_return 0)]%nat entry_frame).
  - split; by_computation.
  - cbn. lia.
Defined.

(** ** The labels the macros paste *)

Lemma labels_expand_all_lines (text : list (nat * macro)) :
  labels (expand_all text)
  ≡ₚ (destructor <$> push_lines text)
     ++ (after_destructor <$> push_lines text)
     ++ (return_ <$> scope_lines text).
Proof.
  induction text as [|[LINE m] text IH]; [reflexivity|].
  cbn [expand_all]. rewrite labels_app, IH.
  destruct m; cbn [expand labels PUSH_DESTRUCTOR PUSH_DESTRUCTOR_ PUSH_DESTRUCTOR__
                   BEGIN_SCOPE END_SCOPE END_SCOPE_ END_SCOPE__ END_SCOPE_AND_BREAK
                   END_SCOPE_AND_RETURN app push_lines scope_lines fmap list_fmap].
  - constructor. apply Permutation_middle.
  - reflexivity.
  - rewrite (app_assoc _ _ (return_ LINE :: _)), <- Permutation_middle.
    by rewrite <- app_assoc.
  - rewrite (app_assoc _ _ (return_ LINE :: _)), <- Permutation_middle.
    by rewrite <- app_assoc.
  - rewrite (app_assoc _ _ (return_ LINE :: _)), <- Permutation_middle.
    by rewrite <- app_assoc.
Qed.

(** X6. The labels of a function made with the macros are pairwise distinct
    exactly when no two [PUSH_DESTRUCTOR] share a line and no two of
    [END_SCOPE], [END_SCOPE_AND_BREAK] and [END_SCOPE_AND_RETURN] share a
    line.  A [PUSH_DESTRUCTOR] and an [END_SCOPE] on one line do not clash:
    their labels are pasted from different names. *)
Theorem labels_distinct_iff_well_formed (n : Z) (text : list (nat * macro)) :
  NoDup (labels (function_body n text)) <-> well_formed text.
Proof.
  unfold function_body. rewrite labels_app. cbn [MAKE_DESTRUCTOR_STACK labels app].
  rewrite labels_expand_all_lines. unfold well_formed.
  assert (Hd : Inj (=) (=) destructor) by (intros ? ? [=]; done).
  assert (Ha : Inj (=) (=) after_destructor) by (intros ? ? [=]; done).
  assert (Hr : Inj (=) (=) return_) by (intros ? ? [=]; done).
  rewrite !NoDup_app, !(NoDup_fmap _).
  split.
  - tauto.
  - intros [Hp Hs]. repeat split; try assumption.
    + intros l Hl. apply list_elem_of_fmap in Hl as (x & -> & _).
      rewrite elem_of_app, !list_elem_of_fmap.
      intros [(y & [=] & _)|(y & [=] & _)].
    + intros l Hl. apply list_elem_of_fmap in Hl as (x & -> & _).
      rewrite list_elem_of_fmap. intros (y & [=] & _).
Qed.

Lemma labels_distinct_iff_well_formed_witness :
  NoDup (labels (function_body 2
                   [(1, begin_scope); (2, push_destructor); (2, end_scope);
                    (3, push_destructor); (4, end_scope_and_return 0)]%nat)).
Proof.
  apply (proj2 (labels_distinct_iff_well_formed
                  2
                  [(1, begin_scope); (2, push_destructor); (2, end_scope);
                   (3, push_destructor); (4, end_scope_and_return 0)]%nat)).
  split; by_computation.
Defined.

(** ** Leaving a scope by [break] *)

(** X7. A function pushes the blocks of [ks], opens a scope with
    [BEGIN_SCOPE], pushes the blocks of [js] and reaches
    [END_SCOPE_AND_BREAK]: exactly the blocks of [js] run, last pushed first,
    then the [break] leaves with the cursor back at [length ks], the entries
    of [ks] still pending and the marker still that of the scope.  Whatever
    follows the macro in the text is not run. *)
Theorem scope_break_runs_the_scope_in_reverse
        (n : Z) (ks js : list nat) (BEGIN LINE : nat)
        (after : list (nat * macro)) (f0 : frame) :
  well_formed (scoped_break_text ks js BEGIN LINE after) ->
  Z.of_nat (length ks) + Z.of_nat (length js) <= n ->
  exists f,
    exec (function_body n (scoped_break_text ks js BEGIN LINE after))
         (11 * length js + 4 * length ks + 9) f0
    = Broke f
    /\ executed f = executed f0 ++ reverse js
    /\ next_label_address f = Z.of_nat (length ks)
    /\ pending f = entries ks
    /\ destructor_label_address_stack_end f = Z.of_nat (length ks) - 1.
Proof.
  intros Hwf Hroom. unfold scoped_break_text in *.
  pose proof (between_made n _ f0 ltac:(lia) Hwf) as H0.
  destruct (run_pushes n (executed f0) ks [] _ [] [] (made n f0) H0)
    as (f1 & Hrun1 & H1 & _ & _).
  { unfold made. fields. rewrite length_replicate. lia. }
  cbn [app] in Hrun1, H1.
  assert (Hnext1 : next_label_address f1 = Z.of_nat (length ks)).
  { rewrite <- (length_pending f1) by apply (between_bounds _ _ _ _ _ _ _ H1).
    by rewrite (between_pending _ _ _ _ _ _ _ H1), length_entries. }
  pose proof (between_BEGIN _ _ _ _ _ _ _ _ H1) as H2.
  set (f2 := with_stack_end (next_label_address f1 - 1) f1) in H2.
  destruct (run_pushes n (executed f0) js _ _ [] ks f2 H2)
    as (f3 & Hrun3 & H3 & Hend3 & _).
  { subst f2. fields. pose proof (between_capacity _ _ _ _ _ _ _ H1) as Hcap.
    unfold capacity in Hcap. lia. }
  subst f2. fields.
  assert (Hend : destructor_label_address_stack_end f3 + 1 = Z.of_nat (length ks))
    by lia.
  pose proof (between_END_SCOPE _ _ _ _ _ _ _ _ _ end_scope_and_break I H3 Hend)
    as H4.
  assert (Hrun4 : run (function_body n
                         (((pushes ks ++ [(BEGIN, begin_scope)]) ++ pushes js)
                            ++ (LINE, end_scope_and_break) :: after))
                      (7 * length js + 4)
                      (END_SCOPE LINE ++ [Sbreak] ++ expand_all after) f3
                  = Running ([Sbreak] ++ expand_all after) (unwound LINE js f3)).
  { apply (exec_END_SCOPE _ LINE) with (below := ks).
    - apply (find_return n _ after LINE end_scope_and_break I).
      eapply (fresh_scope_line _ _ _ end_scope_and_break I), between_well_formed, H3.
    - intros lineno Hin. eapply between_linked; [exact H3|].
      rewrite elem_of_app. by right.
    - eapply between_bounds, H3.
    - eapply between_pending, H3.
    - exact Hend. }
  rewrite <- ?app_assoc in Hrun3. rewrite <- ?app_assoc in Hrun4.
  cbn [app] in Hrun3, Hrun4.
  exists (unwound LINE js f3). repeat apply conj.
  - replace (11 * length js + 4 * length ks + 9)%nat
      with (3 + (4 * length ks
                 + (1 + (4 * length js + ((7 * length js + 4) + 1)))))%nat by lia.
    unfold exec. unfold function_body at 2.
    erewrite run_then by (apply exec_MAKE; lia).
    erewrite run_then by exact Hrun1.
    erewrite run_then by reflexivity.
    erewrite run_then by exact Hrun3.
    cbn [expand_all expand]. unfold END_SCOPE_AND_BREAK. rewrite <- app_assoc.
    by erewrite run_then by exact Hrun4.
  - rewrite (between_executed _ _ _ _ _ _ _ H4). reflexivity.
  - unfold unwound. fields. lia.
  - apply (between_pending _ _ _ _ _ _ _ H4).
  - unfold unwound. fields. lia.
Qed.

Lemma scope_break_runs_the_scope_in_reverse_witness :
  exists f,
    exec (function_body 4
            (scoped_break_text [10; 11]%nat [13; 14]%nat 12 15
               [(16%nat, push_destructor)]))
         39 entry_frame
    = Broke f
    /\ executed f = [14; 13]%nat
    /\ next_label_address f = 2
    /\ pending f = [Some (destructor 10); Some (destructor 11)]
    /\ destructor_label_address_stack_end f = 1.
Proof.
  apply (scope_break_runs_the_scope_in_reverse
           4 [10; 11]%nat [13; 14]%nat 12 15 [(16%nat, push_destructor)]
           entry_frame).
  - split; by_computation.
  - cbn. lia.
Defined.

(** ** Why a run aborts *)

Lemma exec_ended (n : Z) (text : list (nat * macro)) (f0 : frame) (fuel : nat) :
  well_formed text ->
  final (exec (function_body n text) fuel f0) ->
  exec (function_body n text) fuel f0 <> Undefined ->
  0 <= n /\ exec (function_body n text) fuel f0 = effects text (made n f0).
Proof.
  intros Hwf Hfinal Hdefined.
  assert (Hn : 0 <= n).
  { destruct (decide (0 <= n)) as [|Hn]; [assumption|].
    destruct fuel as [|fuel]; [by cbn in Hfinal|].
    by rewrite exec_negative in Hdefined by lia. }
  split; [exact Hn|]. by apply final_exec_is_effects.
Qed.




Lemma effects_abort_at_capacity (n : Z) (start : list nat)
      (todo : list (nat * macro)) :
  forall done ran pend f,
    between n start done todo ran pend f ->
    marker_set f ->
    match effects todo f with
    | Aborted f' => next_label_address f' = n /\ capacity f' = n
    | _ => True
    end.
Proof.
  induction todo as [|[LINE m] todo IH]; intros done ran pend f Hbetween Hmarker;
    [exact I|].
  pose proof (between_bounds _ _ _ _ _ _ _ Hbetween) as Hbounds.
  pose proof (between_capacity _ _ _ _ _ _ _ Hbetween) as Hcap.
  assert (Hunwind : unwinds m -> forall p,
             -1 <= p < next_label_address f ->
             exists below lines,
               unwind_to_marker LINE (with_stack_end p f)
               = Unwound (unwound LINE lines (with_stack_end p f))
               /\ between n start (done ++ [(LINE, m)]) todo
                          (ran ++ reverse lines) below
                          (unwound LINE lines (with_stack_end p f))).
  { intros Hm p Hp.
    pose proof (unwind_to_marker_between _ _ _ _ _ _ _ _ m Hm
                  (between_with_stack_end _ _ _ _ _ _ _ p Hbetween)) as Hafter.
    unfold unwind_to_marker in *. fields.
    rewrite decide_False in * by lia. rewrite decide_False in * by lia.
    destruct Hafter as (below & lines & _ & _ & Heq & Hbetween').
    exists below, lines. by rewrite <- Heq. }
  unfold marker_set in Hmarker.
  destruct m; cbn [effects].
  - destruct (decide (0 <= next_label_address f < capacity f)).
    + eapply IH; [apply between_PUSH; [exact Hbetween|lia]|].
      unfold marker_set, pushed. fields. lia.
    + split; [lia|exact Hcap].
  - eapply IH; [by apply between_BEGIN|]. unfold marker_set. fields. lia.
  - destruct (Hunwind I (destructor_label_address_stack_end f) Hmarker)
      as (below & lines & Heq & Hbetween').
    replace (with_stack_end (destructor_label_address_stack_end f) f) with f
      in * by (by destruct f).
    rewrite Heq. eapply IH; [exact Hbetween'|].
    unfold marker_set, unwound. fields. lia.
  - destruct (Hunwind I (destructor_label_address_stack_end f) Hmarker)
      as (below & lines & Heq & Hbetween').
    replace (with_stack_end (destructor_label_address_stack_end f) f) with f
      in * by (by destruct f).
    by rewrite Heq.
  - destruct (Hunwind I (0 - 1) ltac:(lia)) as (below & lines & Heq & Hbetween').
    by rewrite Heq.
Qed.

(** X9. A function that sets the marker first, with [BEGIN_SCOPE], aborts
    only for want of cells: when it aborts, the cursor is at the end of the
    array, all [n] cells hold pending entries.  None of the assertions of
    [END_SCOPE], [END_SCOPE_AND_BREAK] and [END_SCOPE_AND_RETURN] fails in
    such a function. *)
Theorem marker_set_first_aborts_only_at_capacity
        (n : Z) (BEGIN : nat) (text : list (nat * macro)) (f0 : frame)
        (fuel : nat) (f : frame) :
  well_formed text ->
  exec (function_body n ((BEGIN, begin_scope) :: text)) fuel f0 = Aborted f ->
  next_label_address f = n /\ capacity f = n.
Proof.
  intros Hwf Hrun.
  assert (Hwf' : well_formed ((BEGIN, begin_scope) :: text)) by exact Hwf.
  destruct (exec_ended n _ f0 fuel Hwf') as [Hn Heffects];
    [by rewrite Hrun..|].
  pose proof (effects_abort_at_capacity n (executed f0) text
                [(BEGIN, begin_scope)] [] []
                (with_stack_end (next_label_address (made n f0) - 1) (made n f0)))
    as Hcapacity.
  cbn [effects] in Heffects. rewrite <- Heffects, Hrun in Hcapacity.
  apply Hcapacity.
  - apply (between_BEGIN _ _ [] text), between_made; assumption.
  - unfold marker_set, made. fields. lia.
Qed.

Lemma marker_set_first_aborts_only_at_capacity_witness :
  next_label_address (Frame [Some (destructor 5)] (Some (return_ 4)) 1 (-1) [2%nat])
  = 1
  /\ capacity (Frame [Some (destructor 5)] (Some (return_ 4)) 1 (-1) [2%nat]) = 1.
Proof.
  apply (marker_set_first_aborts_only_at_capacity
           1 1
           [(2, push_destructor); (3, end_scope); (4, end_scope);
            (5, push_destructor); (6, push_destructor)]%nat
           entry_frame 40).
  - split; by_computation.
  - reflexivity.
Defined.
